(** * Smart task planner: ordering engine and calendar scheduler

    A shallow embedding of [topo_sort] and [schedule_tasks] from
    [smart_task_planner_final.py], with the properties of the ordering and of
    the computed schedule.

    Modelling conventions.
    - Python dictionaries are finite maps ([gmap]); the one dictionary whose
      iteration order is observed ([indeg], through [indeg.items()]) also
      carries its keys in insertion order ([pydict]).
    - A Python [set] of strings is kept as the list of its elements in order
      of first insertion.  The order in which a [for] loop visits it depends
      on the string hashes of the running interpreter, so it is a parameter
      ([set_order]) of which only "visits every element once" is known.
    - Python exceptions are values of [outcome]; the [while] loop of
      [topo_sort] runs on fuel, and is proved to need no more than one unit
      per node.
    - Floats are idealised as exact rationals ([Q]); datetimes are integers
      (microseconds of local wall-clock time), [timedelta(hours=h)] rounds to
      the nearest microsecond, ties to even, as CPython does.  Infinities,
      NaN and the overflow of floats and datetimes are outside the model.
    - Task ids and dependency references are strings, as the signature of
      [topo_sort] has them. *)

From Stdlib Require Import QArith Qminmax Qround Lqa.
From stdpp Require Import gmap strings list fin_maps relations pretty.

Close Scope Q_scope.
Open Scope Z_scope.

(** ** Python values and exceptions *)

Inductive exn := KeyError | TypeError | ValueError | ZeroDivisionError.

Inductive outcome (A : Type) :=
  | Ok (a : A)
  | Raise (e : exn)
  | OutOfFuel.
Arguments Ok {A} a.
Arguments Raise {A} e.
Arguments OutOfFuel {A}.

#[global] Instance outcome_ret : MRet outcome := λ A a, Ok a.
#[global] Instance outcome_bind : MBind outcome := λ A B f m,
  match m with
  | Ok a => f a
  | Raise e => Raise e
  | OutOfFuel => OutOfFuel
  end.

#[global] Instance outcome_fmap : FMap outcome := λ A B f m,
  match m with
  | Ok a => Ok (f a)
  | Raise e => Raise e
  | OutOfFuel => OutOfFuel
  end.

(** [d[k]] on a dictionary: [KeyError] when the key is missing. *)
Definition getitem {V : Type} (d : gmap string V) (k : string) : outcome V :=
  match d !! k with
  | Some v => Ok v
  | None => Raise KeyError
  end.

(** [for x in xs: ...] threading a state through a body that may raise. *)
Fixpoint for_each {A S : Type} (body : S → A → outcome S) (s : S) (xs : list A)
  : outcome S :=
  match xs with
  | [] => Ok s
  | x :: xs => s' ← body s x; for_each body s' xs
  end.

(** A list comprehension [[f x for x in xs]] whose element may raise. *)
Fixpoint comprehension {A B : Type} (f : A → outcome B) (xs : list A)
  : outcome (list B) :=
  match xs with
  | [] => Ok []
  | x :: xs => y ← f x; ys ← comprehension f xs; Ok (y :: ys)
  end.

(** A JSON value as [json.loads] delivers it; arrays and objects only matter
    through their truth value. *)
Inductive json :=
  | JNull
  | JBool (b : bool)
  | JNum (q : Q)
  | JStr (s : string)
  | JContainer (nonempty : bool).

(** A task dictionary.  [None] in [t_estimated_hours] and [t_name] is an
    absent key; [None] in [t_depends_on] is an absent key or a JSON null (the
    source reads it with [t.get("depends_on", []) or []]). *)
Record task := Task {
  t_id : string;
  t_name : option string;
  t_estimated_hours : option json;
  t_depends_on : option (list string)
}.

Definition depends_on (t : task) : list string := default [] (t_depends_on t).

Definition ids (tasks : list task) : list string := t_id <$> tasks.

(** ** Python sets and insertion-ordered dictionaries *)

Abbreviation pyset := (list string) (only parsing).

Definition set_add (x : string) (s : pyset) : pyset :=
  if decide (x ∈ s) then s else s ++ [x].

(** The order in which iteration visits a set, as a function of the set's
    insertion history. *)
Record set_order := SetOrder {
  set_iter : list string → list string;
  set_iter_perm : ∀ l, set_iter l ≡ₚ l
}.

Record pydict (V : Type) := PyDict {
  keys : list string;
  store : gmap string V
}.
Arguments PyDict {V} keys store.
Arguments keys {V} _.
Arguments store {V} _.

Definition dict_empty {V : Type} : pydict V := PyDict [] ∅.

Definition dict_setdefault {V : Type} (d : pydict V) (k : string) (v : V) : pydict V :=
  match store d !! k with
  | Some _ => d
  | None => PyDict (keys d ++ [k]) (<[k := v]> (store d))
  end.

Definition dict_set {V : Type} (d : pydict V) (k : string) (v : V) : pydict V :=
  match store d !! k with
  | Some _ => PyDict (keys d) (<[k := v]> (store d))
  | None => PyDict (keys d ++ [k]) (<[k := v]> (store d))
  end.

Definition dict_items {V : Type} (d : pydict V) : list (string * V) :=
  omap (λ k, (λ v, (k, v)) <$> store d !! k) (keys d).

(** ** The ordering engine: [topo_sort] *)

Record nodes := Nodes {
  graph : gmap string pyset;
  indeg : pydict Z
}.

(** First loop: [graph.setdefault(tid, set()); indeg.setdefault(tid, 0)]. *)
Definition declare_node (st : nodes) (t : task) : nodes :=
  let tid := t_id t in
  Nodes (match graph st !! tid with
         | Some _ => graph st
         | None => <[tid := []]> (graph st)
         end)
        (dict_setdefault (indeg st) tid 0).

(** Body of the inner loop of the second pass, for one [dep] of task [tid]. *)
Definition add_edge (tid : string) (st : nodes) (dep : string) : nodes :=
  match graph st !! dep with
  | Some succs =>
      Nodes (<[dep := set_add tid succs]> (graph st))
            (dict_set (indeg st) tid (default 0 (store (indeg st) !! tid) + 1))
  | None => st
  end.

Definition add_edges (st : nodes) (t : task) : nodes :=
  foldl (add_edge (t_id t)) st (depends_on t).

Definition build_nodes (tasks : list task) : nodes :=
  foldl add_edges (foldl declare_node (Nodes ∅ dict_empty) tasks) tasks.

(** [q = [n for n, d in indeg.items() if d == 0]]. *)
Definition ready (d : pydict Z) : list string :=
  (filter (λ kv, kv.2 = 0) (dict_items d)).*1.

(** The body [indeg[v] -= 1; if indeg[v] == 0: q.append(v)], run over the
    successors [vs] of the node just taken from the queue. *)
Fixpoint relax (deg : gmap string Z) (q : list string) (vs : list string)
  : outcome (gmap string Z * list string) :=
  match vs with
  | [] => Ok (deg, q)
  | v :: vs =>
      match deg !! v with
      | None => Raise KeyError
      | Some d =>
          relax (<[v := d - 1]> deg)
                (if decide (d - 1 = 0) then q ++ [v] else q) vs
      end
  end.

(** The [while q:] loop. *)
Fixpoint kahn (so : set_order) (g : gmap string pyset) (fuel : nat)
    (deg : gmap string Z) (q order : list string) : outcome (list string) :=
  match q with
  | [] => Ok order
  | n :: q =>
      match fuel with
      | O => OutOfFuel
      | S fuel =>
          '(deg', q') ← relax deg q (set_iter so (default [] (g !! n)));
          kahn so g fuel deg' q' (order ++ [n])
      end
  end.

(** Final loop: [if t["id"] not in order: order.append(t["id"])]. *)
Definition append_missing (order : list string) (tasks : list task) : list string :=
  foldl (λ order t, if decide (t_id t ∈ order) then order else order ++ [t_id t])
        order tasks.

Definition kahn_phase (so : set_order) (tasks : list task) : outcome (list string) :=
  let st := build_nodes tasks in
  kahn so (graph st) (length (keys (indeg st))) (store (indeg st))
       (ready (indeg st)) [].

Definition topo_sort (so : set_order) (tasks : list task) : outcome (list string) :=
  order ← kahn_phase so tasks;
  Ok (append_missing order tasks).

(** Two iteration orders: oldest element first, and newest element first.
    For a set of two short strings CPython's order is that of their hash
    slots, so either of the two occurs for suitable hash seeds. *)
Definition insertion_order : set_order := SetOrder (λ l, l) (λ l, reflexivity l).
Definition newest_first : set_order := SetOrder reverse reverse_Permutation.

Definition simple (tid : string) (deps : list string) : task :=
  Task tid None None (Some deps).

(** ** Numbers, instants and durations *)

(** Python truth value, the [or] operator, and [float(...)].  What [float]
    makes of a string is left to [parse].  A number is read as itself: the
    rounding of [float], its [OverflowError] on an integer beyond the floats,
    and the values NaN and Infinity are outside the model. *)
Definition truthy (v : json) : bool :=
  match v with
  | JNull => false
  | JBool b => b
  | JNum q => negb (Qeq_bool q 0)
  | JStr s => negb (String.eqb s "")
  | JContainer nonempty => nonempty
  end.

Definition py_or (v w : json) : json := if truthy v then v else w.

Definition float_ (parse : string → option Q) (v : json) : outcome Q :=
  match v with
  | JNull => Raise TypeError
  | JBool b => Ok (if b then 1%Q else 0%Q)
  | JNum q => Ok q
  | JStr s => match parse s with Some q => Ok q | None => Raise ValueError end
  | JContainer _ => Raise TypeError
  end.

(** [t.get("estimated_hours", 2)]. *)
Definition estimated_hours (t : task) : json := default (JNum 2) (t_estimated_hours t).

Definition us_per_hour : Z := 3600000000.
Definition us_per_day : Z := 86400000000.

Definition round_half_even (x : Q) : Z :=
  let f := Qfloor x in
  match Qcompare (x - inject_Z f) (1 # 2) with
  | Lt => f
  | Gt => f + 1
  | Eq => if Z.even f then f else f + 1
  end.

(** [timedelta(hours=h)], in microseconds; the [OverflowError] beyond
    999999999 days is outside the model, and so is that of an instant beyond
    [datetime.max] wherever a duration is added to an instant. *)
Definition timedelta_hours (h : Q) : Z := round_half_even (h * inject_Z us_per_hour).

(** [delta.days] for a [timedelta], and [dt.date()] as a day number. *)
Definition days (delta : Z) : Z := delta / us_per_day.
Definition date (dt : Z) : Z := dt / us_per_day.

(** [round(h, 1)], on the exact value. *)
Definition round1 (h : Q) : Q := (inject_Z (round_half_even (h * 10)) / 10)%Q.

(** [max(xs, default=d)]. *)
Definition pymax (d : Z) (xs : list Z) : Z :=
  match xs with
  | [] => d
  | x :: xs => foldl Z.max x xs
  end.

Definition qsum (xs : list Q) : Q := foldl Qplus 0%Q xs.

(** ** The calendar scheduler: [schedule_tasks] *)

(** [tmap = {t["id"]: t for t in tasks}]: a later task replaces an earlier one
    with the same id. *)
Definition task_map (tasks : list task) : gmap string task :=
  foldl (λ m t, <[t_id t := t]> m) ∅ tasks.

Record times := Times {
  est : gmap string Z;
  dur : gmap string Z
}.

(** [(est[d] + dur[d] for d in deps if d in est)]. *)
Definition dep_ends (est dur : gmap string Z) (deps : list string) : outcome (list Z) :=
  comprehension (λ d, e ← getitem est d; u ← getitem dur d; Ok (e + u))
                (filter (λ d, is_Some (est !! d)) deps).

(** Body of the first loop of [schedule_tasks]. *)
Definition plan_task (parse : string → option Q) (tmap : gmap string task)
    (start_dt : Z) (st : times) (tid : string) : outcome times :=
  t ← getitem tmap tid;
  h ← float_ parse (py_or (estimated_hours t) (JNum 2));
  let dur' := <[tid := timedelta_hours h]> (dur st) in
  ends ← dep_ends (est st) dur' (depends_on t);
  Ok (Times (<[tid := pymax start_dt ends]> (est st)) dur').

Definition earliest_starts (parse : string → option Q) (tmap : gmap string task)
    (start_dt : Z) (order : list string) : outcome times :=
  for_each (plan_task parse tmap start_dt) (Times ∅ ∅) order.

(** [max((est[t] + dur[t] for t in order), default=start_dt)]. *)
Definition naive_end (tm : times) (start_dt : Z) (order : list string) : outcome Z :=
  ends ← comprehension (λ t, e ← getitem (est tm) t; u ← getitem (dur tm) t; Ok (e + u)) order;
  Ok (pymax start_dt ends).

(** [max(float(tmap[t].get("estimated_hours", 2)), 1)]. *)
Definition floored_hours (parse : string → option Q) (tmap : gmap string task)
    (tid : string) : outcome Q :=
  t ← getitem tmap tid;
  x ← float_ parse (estimated_hours t);
  Ok (Qmax x 1).

(** [sum(max(float(tmap[t].get("estimated_hours", 2)),1) for t in order)]. *)
Definition total_h (parse : string → option Q) (tmap : gmap string task)
    (order : list string) : outcome Q :=
  hs ← comprehension (floored_hours parse tmap) order;
  Ok (qsum hs).

(** [max((deadline - start_dt).days,1)*work_hours_per_day]. *)
Definition hours_avail (start_dt deadline work_hours_per_day : Z) : Z :=
  Z.max (days (deadline - start_dt)) 1 * work_hours_per_day.

Definition divide (a b : Q) : outcome Q :=
  if Qeq_bool b 0 then Raise ZeroDivisionError else Ok (a / b)%Q.

(** The block [ratio = 1.0; if deadline: ...]. *)
Definition compression_ratio (parse : string → option Q) (tmap : gmap string task)
    (order : list string) (tm : times) (start_dt : Z) (deadline : option Z)
    (work_hours_per_day : Z) : outcome Q :=
  match deadline with
  | None => Ok 1%Q
  | Some dl =>
      finish ← naive_end tm start_dt order;
      if decide (dl < finish) then
        total ← total_h parse tmap order;
        r ← divide (inject_Z (hours_avail start_dt dl work_hours_per_day)) total;
        Ok (Qmax r (1 # 4))
      else Ok 1%Q
  end.

(** What the last loop computes for one task: [h], [s] and [e]. *)
Record row := Row {
  r_id : string;
  r_name : string;
  r_h : Q;
  r_s : Z;
  r_e : Z
}.

(** The dictionary appended to [out]. *)
Record entry := Entry {
  e_id : string;
  e_name : string;
  start_date : Z;
  end_date : Z;
  duration_hours : Q
}.

Definition materialize (parse : string → option Q) (tmap : gmap string task)
    (tm : times) (ratio : Q) (tid : string) : outcome row :=
  t ← getitem tmap tid;
  x ← float_ parse (estimated_hours t);
  let h := (Qmax x 1 * ratio)%Q in
  s ← getitem (est tm) tid;
  Ok (Row tid (default tid (t_name t)) h s (s + timedelta_hours h)).

Definition entry_of_row (r : row) : entry :=
  Entry (r_id r) (r_name r) (date (r_s r)) (date (r_e r)) (round1 (r_h r)).

(** The local variables of one run of [schedule_tasks]. *)
Record plan := Plan {
  p_order : list string;
  p_times : times;
  p_ratio : Q;
  p_rows : list row
}.

Definition schedule_plan (so : set_order) (parse : string → option Q)
    (tasks : list task) (start_dt : Z) (deadline : option Z)
    (work_hours_per_day : Z) : outcome plan :=
  let tmap := task_map tasks in
  order ← topo_sort so tasks;
  tm ← earliest_starts parse tmap start_dt order;
  ratio ← compression_ratio parse tmap order tm start_dt deadline work_hours_per_day;
  rows ← comprehension (materialize parse tmap tm ratio) order;
  Ok (Plan order tm ratio rows).

Definition schedule_tasks (so : set_order) (parse : string → option Q)
    (tasks : list task) (start_dt : Z) (deadline : option Z)
    (work_hours_per_day : Z) : outcome (list entry) :=
  p ← schedule_plan so parse tasks start_dt deadline work_hours_per_day;
  Ok (entry_of_row <$> p_rows p).

Definition timed (tid : string) (hours : Q) (deps : list string) : task :=
  Task tid None (Some (JNum hours)) (Some deps).

(** ** Specification vocabulary for the ordering *)

(** The ids of [l] that are not in [seen], each at its first occurrence, in the
    order of [l]. *)
Fixpoint unreached (seen : list string) (l : list string) : list string :=
  match l with
  | [] => []
  | x :: l =>
      if decide (x ∈ seen) then unreached seen l
      else x :: unreached (seen ++ [x]) l
  end.

(** [before order a b]: [a] has a position in [order] strictly before a
    position of [b]. *)
Definition before (order : list string) (a b : string) : Prop :=
  ∃ i j : nat, order !! i = Some a ∧ order !! j = Some b ∧ (i < j)%nat.

(** The in-batch dependencies declared for id [v], with multiplicity: every
    occurrence of an id of [I] in the [depends_on] of a task of [ts] named
    [v]; [preds] takes the whole batch for both. *)
Definition preds_in (I : list string) (ts : list task) (v : string) : list string :=
  flat_map (λ t, if decide (t_id t = v)
                 then filter (λ d, d ∈ I) (depends_on t) else [])
           ts.

Definition preds (tasks : list task) (v : string) : list string :=
  preds_in (ids tasks) tasks v.

Arguments preds_in : simpl never.
Arguments preds : simpl never.

(** [edge tasks d v]: the dependency graph has an edge from [d] to [v]. *)
Definition edge (tasks : list task) (d v : string) : Prop := d ∈ preds tasks v.

Definition acyclic (tasks : list task) : Prop := ∀ x, ¬ tc (edge tasks) x x.

(** No id is given the same in-batch dependency twice. *)
Definition distinct_references (tasks : list task) : Prop :=
  ∀ v, NoDup (preds tasks v).

(** The data model's shape of a batch: ids are unique and every
    [depends_on] is a set. *)
Definition well_formed (tasks : list task) : Prop :=
  NoDup (ids tasks) ∧ Forall (λ t, NoDup (depends_on t)) tasks.

(** ** Invariants of the loops *)

(** The key list of a dictionary has no duplicates and lists the keys of its
    store. *)
Definition dict_wf {V : Type} (d : pydict V) : Prop :=
  NoDup (keys d) ∧ ∀ k, k ∈ keys d ↔ is_Some (store d !! k).

(** Every successor recorded in the graph has an in-degree entry. *)
Definition nodes_ok (st : nodes) : Prop :=
  dict_wf (indeg st) ∧
  ∀ n s v, graph st !! n = Some s → v ∈ s → is_Some (store (indeg st) !! v).

(** Every id of [l] has an in-degree entry that is zero or below. *)
Definition settled (deg : gmap string Z) (l : list string) : Prop :=
  ∀ x, x ∈ l → ∃ d, deg !! x = Some d ∧ d ≤ 0.

(** Both dictionaries have exactly the ids of [I] as keys. *)
Definition dom_is (I : list string) (st : nodes) : Prop :=
  (∀ k, is_Some (graph st !! k) ↔ k ∈ I) ∧
  (∀ k, is_Some (store (indeg st) !! k) ↔ k ∈ I).

(** The dependencies of [v] that are not yet in [order]. *)
Definition pending (tasks : list task) (order : list string) (v : string)
  : list string :=
  filter (λ d, d ∉ order) (preds tasks v).

(** Invariant of the queue loop on a batch whose in-degrees count distinct
    predecessors: the in-degree of a node is the number of its pending
    dependencies, the nodes taken or queued are those with none pending, and
    every node taken comes after its dependencies. *)
Record topo_inv (tasks : list task) (deg : gmap string Z) (q order : list string)
  : Prop := TopoInv {
  ti_deg : ∀ v, v ∈ ids tasks →
                deg !! v = Some (Z.of_nat (length (pending tasks order v)));
  ti_ready : ∀ v, v ∈ order ++ q ↔ v ∈ ids tasks ∧ pending tasks order v = [];
  ti_sorted : ∀ v d, v ∈ order → d ∈ preds tasks v → before order d v;
  ti_nodup : NoDup (order ++ q)
}.

(** ** Specification vocabulary for the schedule *)

(** The end instant of [d] in [tm]: its earliest start plus its duration. *)
Definition finish (tm : times) (d : string) : Z :=
  default 0 (est tm !! d) + default 0 (dur tm !! d).

(** [estimated_hours] is absent or a JSON number. *)
Definition numeric_hours (t : task) : Prop :=
  match t_estimated_hours t with
  | None | Some (JNum _) => True
  | Some _ => False
  end.

(** Invariant of the first loop of [schedule_tasks] once the ids of [done]
    have been processed, in that order. *)
Record starts_inv (tmap : gmap string task) (start_dt : Z) (done : list string)
    (st : times) : Prop := StartsInv {
  si_est : ∀ d, is_Some (est st !! d) ↔ d ∈ done;
  si_dur : ∀ d, is_Some (dur st !! d) ↔ d ∈ done;
  si_start : ∀ pre tid post t,
    done = pre ++ tid :: post → tmap !! tid = Some t →
    est st !! tid =
    Some (pymax start_dt (finish st <$> filter (λ d, d ∈ pre) (depends_on t)))
}.

(** [r] is the row that the last loop computes for its task from the
    earliest starts [tm] and the ratio: [x] is the task's
    [float(estimated_hours)]. *)
Definition row_of (parse : string → option Q) (tmap : gmap string task)
    (tm : times) (ratio : Q) (r : row) (t : task) (x : Q) : Prop :=
  tmap !! r_id r = Some t ∧
  float_ parse (estimated_hours t) = Ok x ∧
  r_name r = default (r_id r) (t_name t) ∧
  r_h r = (Qmax x 1 * ratio)%Q ∧
  est tm !! r_id r = Some (r_s r) ∧
  r_e r = r_s r + timedelta_hours (r_h r).

(** The ids that seed the queue: those without any in-batch dependency
    reference, at their first occurrence, in batch order. *)
Definition seeds (tasks : list task) : list string :=
  filter (λ v, preds tasks v = []) (unreached [] (ids tasks)).

(** ** Sample batches *)

(** One task with two dependants. *)
Definition fan : list task :=
  [simple "A" []; simple "B" ["A"]; simple "C" ["A"]].

(** A chain listed against its dependencies, with a dangling reference. *)
Definition chain : list task :=
  [timed "C" 2 ["B"]; timed "B" 2 ["A"; "Z"]; timed "A" 2 []].

(** The chain with the dependency of B written twice. *)
Definition chain_repeated : list task :=
  [simple "C" ["B"]; simple "B" ["A"; "A"]; simple "A" []].

(** A numbering of the ids of both chains that grows along the dependencies. *)
Definition chain_rank (x : string) : nat :=
  if decide (x = "A"%string) then 0 else if decide (x = "B"%string) then 1 else 2.

(** Two tasks that depend on each other. *)
Definition two_cycle : list task :=
  [timed "A" 2 ["B"]; timed "B" 3 ["A"]].

(** Two chained two-hour tasks, and one thirty-hour task. *)
Definition pair : list task := [timed "A" 2 []; timed "B" 2 ["A"]].
Definition long_task : list task := [timed "A" 30 []].

(** A task whose estimate is a JSON null, as in
    [{"id": "T1", "name": "Research", "estimated_hours": null}]. *)
Definition null_estimate : list task :=
  [Task "T1" (Some "Research") (Some JNull) None].

(** [float] for batches that hold no string estimate. *)
Definition no_strings : string → option Q := λ _, None.

Definition plan_of (r : outcome plan) : plan :=
  match r with
  | Ok p => p
  | _ => Plan [] (Times ∅ ∅) 0 []
  end.

Definition chain_plan : plan :=
  Eval vm_compute in plan_of (schedule_plan insertion_order no_strings chain 0 None 6).

Definition two_cycle_plan : plan :=
  Eval vm_compute in plan_of (schedule_plan insertion_order no_strings two_cycle 0 None 6).

Definition pair_plan : plan :=
  Eval vm_compute in
    plan_of (schedule_plan insertion_order no_strings pair 0 (Some 10800000000) 6).

Definition long_task_plan : plan :=
  Eval vm_compute in
    plan_of (schedule_plan insertion_order no_strings long_task 0 (Some 86400000000) 6).

(** ** Vocabulary and invariants for batches of any shape *)

(** The ids of [order] that [v] depends on. *)
Definition taken (tasks : list task) (order : list string) (v : string)
  : list string :=
  filter (λ n, n ∈ preds tasks v) order.

(** Invariant of the queue loop on any batch: the in-degree of a node is the
    number of its dependency references minus the number of its dependencies
    already taken, the nodes taken or queued have in-degree zero, and every
    node taken comes after its dependencies. *)
Record queue_inv (tasks : list task) (deg : gmap string Z) (q order : list string)
  : Prop := QueueInv {
  qi_deg : ∀ v, v ∈ ids tasks →
                deg !! v = Some (Z.of_nat (length (preds tasks v))
                                 - Z.of_nat (length (taken tasks order v)));
  qi_zero : ∀ v, v ∈ order ++ q → v ∈ ids tasks ∧ deg !! v = Some 0;
  qi_sorted : ∀ v d, v ∈ order → d ∈ preds tasks v → before order d v;
  qi_nodup : NoDup (order ++ q)
}.

(** No task refers to a task of the batch. *)
Definition independent (tasks : list task) : Prop :=
  Forall (λ t, Forall (λ d, d ∉ ids tasks) (depends_on t)) tasks.

(** The task with the references outside [I] removed from [depends_on], and
    the batch with its dangling references removed. *)
Definition keep_references (I : list string) (t : task) : task :=
  Task (t_id t) (t_name t) (t_estimated_hours t)
       (Some (filter (λ d, d ∈ I) (depends_on t))).

Definition without_dangling (tasks : list task) : list task :=
  keep_references (ids tasks) <$> tasks.

(** [float(t.get("estimated_hours", 2))] returns. *)
Definition convertible (parse : string → option Q) (t : task) : Prop :=
  ∃ x, float_ parse (estimated_hours t) = Ok x.



(** [estimated_hours] is absent or a JSON number that is not negative. *)
Definition nonnegative_hours (t : task) : Prop :=
  match t_estimated_hours t with
  | None => True
  | Some (JNum q) => (0 <= q)%Q
  | Some _ => False
  end.

(** ** Vocabulary for the queue discipline *)

(** [graph[n]] once the graph is built: the successor set of [n], as the list
    of its elements in order of insertion; empty for an id without entry. *)
Definition successors (tasks : list task) (n : string) : list string :=
  default [] (graph (build_nodes tasks) !! n).

(** [v] has become ready once the ids of [done] are taken: none of its
    in-batch references is repeated, and each of them names an id of
    [done]. *)
Definition ready_after (tasks : list task) (done : list string) (v : string)
  : Prop :=
  NoDup (preds tasks v) ∧ Forall (λ d, d ∈ done) (preds tasks v).

(** The ids that taking [n] makes ready, after the ids of [pre] have been
    taken: the successors of [n] that are ready after [pre ++ [n]], in the
    order in which the loop visits the successor set of [n]. *)
Definition released (so : set_order) (tasks : list task) (pre : list string)
    (n : string) : list string :=
  filter (ready_after tasks (pre ++ [n])) (set_iter so (successors tasks n)).

(** Everything that enters the queue while the ids of [order] are taken in
    that order: the seeds, then for each id in turn what it releases. *)
Definition queue_trace (so : set_order) (tasks : list task) (order : list string)
  : list string :=
  seeds tasks ++ mjoin (imap (λ i n, released so tasks (take i order) n) order).

(** ** Vocabulary for the compression *)

(** [x] is [float(tmap[tid].get("estimated_hours", 2))]. *)
Definition hours_read (parse : string → option Q) (tmap : gmap string task)
    (tid : string) (x : Q) : Prop :=
  ∃ t, tmap !! tid = Some t ∧ float_ parse (estimated_hours t) = Ok x.

(** The demand and the available hours in the words of the specification:
    the sum over the tasks of [max(estimated_hours, 1)], and
    [max(days_between(start, deadline), 1) * work_hours_per_day] with the
    whole days (of 86400000000 microseconds) from the start to the
    deadline. *)
Definition spec_demand_hours (xs : list Q) : Q :=
  foldr Qplus 0%Q ((λ x, Qmax x 1) <$> xs).

Definition spec_available_hours (start_dt deadline work_hours_per_day : Z) : Z :=
  Z.max ((deadline - start_dt) / 86400000000) 1 * work_hours_per_day.

(** Two chained thirty-hour tasks with a half-hour task between them. *)
Definition overrun : list task :=
  [timed "A" 30 []; timed "B" (1 # 2) ["A"]; timed "C" 30 ["B"]].

Definition overrun_plan : plan :=
  Eval vm_compute in
    plan_of (schedule_plan insertion_order no_strings overrun 0
               (Some (2 * 86400000000)) 24).

(** ** The caller: ids for the generated tasks *)

(** A task as the generator returns it, before [plan] gives it an id:
    [None] in [g_id] is an absent ["id"] key (an id that is present is a
    string). *)
Record generated_task := Generated {
  g_id : option string;
  g_name : option string;
  g_estimated_hours : option json;
  g_depends_on : option (list string)
}.

(** [f"T{i}"] for the task at index [i] (from 0) of [enumerate(tasks, 1)]. *)
Definition label (i : nat) : string := ("T" +:+ pretty (S i))%string.

(** [for i, t in enumerate(tasks, 1): t.setdefault("id", f"T{i}")]. *)
Definition assign_ids (tasks : list generated_task) : list task :=
  imap (λ i g, Task (default (label i) (g_id g)) (g_name g)
                    (g_estimated_hours g) (g_depends_on g)) tasks.

(** The part of [plan] between the generator's answer and the response. *)
Definition plan_schedule (so : set_order) (parse : string → option Q)
    (generated : list generated_task) (start_dt : Z) (deadline : option Z)
    (work_hours_per_day : Z) : outcome (list entry) :=
  schedule_tasks so parse (assign_ids generated) start_dt deadline work_hours_per_day.

(** The ids that the generator gave are pairwise different. *)
Definition distinct_given (tasks : list generated_task) : Prop :=
  ∀ i j g g' s, tasks !! i = Some g → tasks !! j = Some g' →
                g_id g = Some s → g_id g' = Some s → i = j.

(** No id that the generator gave is the label of a task that it left
    without one. *)
Definition no_label_clash (tasks : list generated_task) : Prop :=
  ∀ i j g g', tasks !! i = Some g → tasks !! j = Some g' →
              g_id g' = None → g_id g ≠ Some (label j).

(** ** Deadlines written as text: [parse_deadline] *)

(** Text is ASCII.  [is_space] is the whitespace of [str.strip] and of [\s],
    [is_digit] the digits of [\d], [to_lower] the letter map of
    [str.lower]. *)
Definition code (c : Ascii.ascii) : nat := Ascii.nat_of_ascii c.

Definition is_space (c : Ascii.ascii) : bool :=
  ((9 <=? code c)%nat && (code c <=? 13)%nat)
  || ((28 <=? code c)%nat && (code c <=? 32)%nat).

Definition is_digit (c : Ascii.ascii) : bool :=
  (48 <=? code c)%nat && (code c <=? 57)%nat.

Definition to_lower (c : Ascii.ascii) : Ascii.ascii :=
  if (65 <=? code c)%nat && (code c <=? 90)%nat
  then Ascii.ascii_of_nat (code c + 32) else c.

Fixpoint lower (s : string) : string :=
  match s with
  | EmptyString => EmptyString
  | String c s => String (to_lower c) (lower s)
  end.

Fixpoint lstrip (s : string) : string :=
  match s with
  | EmptyString => EmptyString
  | String c s' => if is_space c then lstrip s' else s
  end.

Fixpoint rstrip (s : string) : string :=
  match s with
  | EmptyString => EmptyString
  | String c s' =>
      match rstrip s' with
      | EmptyString => if is_space c then EmptyString else String c EmptyString
      | r => String c r
      end
  end.

Definition strip (s : string) : string := rstrip (lstrip s).

(** The longest prefix of characters in a class, and what follows it. *)
Fixpoint take_class (p : Ascii.ascii → bool) (s : string) : string :=
  match s with
  | EmptyString => EmptyString
  | String c s' => if p c then String c (take_class p s') else EmptyString
  end.

Fixpoint skip_class (p : Ascii.ascii → bool) (s : string) : string :=
  match s with
  | EmptyString => EmptyString
  | String c s' => if p c then skip_class p s' else s
  end.

(** What follows the prefix [p] of [s], when [s] starts with [p]. *)
Fixpoint after (p s : string) : option string :=
  match p with
  | EmptyString => Some s
  | String a p' =>
      match s with
      | EmptyString => None
      | String b s' => if Ascii.eqb a b then after p' s' else None
      end
  end.

(** [int(digits)] for a run of digits, onto the accumulator. *)
Fixpoint int_of (acc : N) (digits : string) : N :=
  match digits with
  | EmptyString => acc
  | String c s => int_of (acc * 10 + (N.of_nat (code c) - 48)) s
  end.

(** A match of [in\s+(\d+)\s*(day|days|week|weeks)?] at the head of [s]:
    group 1, and whether group 2 contains ["week"].  The quantifiers are
    greedy and nothing after them can fail, so [\s+] and [\d+] take the
    whole run; of the alternatives the first that fits is taken, which is
    ["week"] exactly when the text after the blanks starts with it. *)
Definition match_here (s : string) : option (string * bool) :=
  match after "in" s with
  | None => None
  | Some rest =>
      match take_class is_space rest with
      | EmptyString => None
      | _ =>
          let rest1 := skip_class is_space rest in
          match take_class is_digit rest1 with
          | EmptyString => None
          | ds =>
              let rest3 := skip_class is_space (skip_class is_digit rest1) in
              Some (ds, String.prefix "week" rest3)
          end
      end
  end.

(** [re.search]: the match at the leftmost position that has one. *)
Fixpoint search (s : string) : option (string * bool) :=
  match match_here s with
  | Some m => Some m
  | None =>
      match s with
      | EmptyString => None
      | String _ s' => search s'
      end
  end.

(** Instants count microseconds from [datetime.min]; [max_instant] is
    [datetime.max], and [timedelta(days=n)] takes at most [max_days]. *)
Definition max_instant : Z := 3652059 * us_per_day - 1.
Definition max_days : Z := 999999999.

(** [int] refuses a numeral of more than [max_str_digits] digits
    ([sys.int_info.default_max_str_digits]). *)
Definition max_str_digits : nat := 4300.

(** What [parse_deadline] does: it returns [None], returns an instant, or
    leaves through an exception raised outside its [try] ([int] refusing
    the numeral, or an overflow in [timedelta] or in the addition). *)
Inductive deadline_result :=
  | NoDeadline
  | Deadline (d : Z)
  | DeadlineOverflow.

(** [strptime s] stands for
    [datetime.strptime(s, "%Y-%m-%d").replace(tzinfo=TZ)], [None] when it
    raises. *)
Definition parse_deadline (strptime : string → option Z) (s : option string)
    (start_dt : Z) : deadline_result :=
  match s with
  | None => NoDeadline
  | Some s0 =>
      if String.eqb s0 "" then NoDeadline
      else
        let s := lower (strip s0) in
        match (if String.prefix "in " s then search s else None) with
        | Some (ds, week) =>
            let n := Z.of_N (int_of 0 ds) in
            let n := if week then n * 7 else n in
            let d := start_dt + n * us_per_day in
            if decide ((String.length ds ≤ max_str_digits)%nat
                       ∧ n ≤ max_days ∧ d ≤ max_instant)
            then Deadline d
            else DeadlineOverflow
        | None =>
            match strptime s with
            | Some d => Deadline d
            | None => NoDeadline
            end
        end
  end.

(** The unit that follows the number: 7 days when the text after the blanks
    starts with ["week"], a day otherwise. *)
Definition unit_days (u : string) : Z :=
  if String.prefix "week" (skip_class is_space u) then 7 else 1.

Definition starts_with_digit (u : string) : bool :=
  match u with
  | EmptyString => false
  | String c _ => is_digit c
  end.

Fixpoint all_digits (s : string) : bool :=
  match s with
  | EmptyString => true
  | String c s' => is_digit c && all_digits s'
  end.

(** * Properties of the ordering engine *)

(** ** Insertion-ordered dictionaries *)

Lemma dict_empty_wf {V : Type} : dict_wf (@dict_empty V).
Proof.
  split; [constructor|]. intros k; cbn. rewrite lookup_empty.
  split; [by intros ?%elem_of_nil | by intros [? ?]].
Qed.

Lemma dict_set_wf {V : Type} (d : pydict V) k v : dict_wf d → dict_wf (dict_set d k v).
Proof.
  intros [Hnd Hk]. unfold dict_set.
  destruct (store d !! k) as [w|] eqn:E; split; cbn.
  - done.
  - intros j. rewrite Hk. destruct (decide (k = j)) as [->|Hne].
    + rewrite lookup_insert_eq, E. split; eauto.
    + by rewrite lookup_insert_ne.
  - apply NoDup_app. split_and!; [done| |apply NoDup_singleton].
    intros j Hj ->%list_elem_of_singleton. apply Hk in Hj. rewrite E in Hj.
    by destruct Hj.
  - intros j. rewrite elem_of_app, list_elem_of_singleton, Hk.
    destruct (decide (k = j)) as [->|Hne].
    + rewrite lookup_insert_eq. split; eauto.
    + rewrite lookup_insert_ne by done. split; [intros [?|?]; [done|congruence]|auto].
Qed.

Lemma dict_setdefault_wf {V : Type} (d : pydict V) k v :
  dict_wf d → dict_wf (dict_setdefault d k v).
Proof.
  intros Hwf. unfold dict_setdefault.
  destruct (store d !! k) as [w|] eqn:E; [done|].
  pose proof (dict_set_wf d k v Hwf) as H. unfold dict_set in H. by rewrite E in H.
Qed.

Lemma dict_set_store {V : Type} (d : pydict V) k v :
  store (dict_set d k v) = <[k := v]> (store d).
Proof. unfold dict_set. by destruct (store d !! k). Qed.

Lemma dict_set_keys {V : Type} (d : pydict V) k v :
  is_Some (store d !! k) → keys (dict_set d k v) = keys d.
Proof. intros [w E]. unfold dict_set. by rewrite E. Qed.

Lemma ready_filter (d : pydict Z) :
  dict_wf d → ready d = filter (λ k, store d !! k = Some 0) (keys d).
Proof.
  intros [_ Hk]. unfold ready, dict_items.
  assert (∀ k, k ∈ keys d → is_Some (store d !! k)) as H by (intros; by apply Hk).
  clear Hk. induction (keys d) as [|k ks IH]; [done|].
  destruct (H k) as [w E]; [left|]. cbn. rewrite E. cbn.
  destruct (decide (w = 0)) as [->|Hne].
  - rewrite decide_True by done. cbn. f_equal. apply IH. intros; apply H; by right.
  - rewrite decide_False by congruence. apply IH. intros; apply H; by right.
Qed.

(** ** The graph built by the first two loops *)

Lemma declare_node_ok st t : nodes_ok st → nodes_ok (declare_node st t).
Proof.
  intros [Hwf Hg]. split; cbn.
  - by apply dict_setdefault_wf.
  - intros n s v Hn Hv.
    assert (is_Some (store (indeg st) !! v)) as Hin.
    { destruct (graph st !! t_id t) eqn:E; [eauto|].
      destruct (decide (t_id t = n)) as [<-|Hne].
      - rewrite lookup_insert_eq in Hn. simplify_eq. by apply elem_of_nil in Hv.
      - rewrite lookup_insert_ne in Hn by done. eauto. }
    unfold dict_setdefault. destruct (store (indeg st) !! t_id t) eqn:E; [done|].
    cbn. destruct (decide (t_id t = v)) as [->|Hne].
    + rewrite lookup_insert_eq; eauto.
    + by rewrite lookup_insert_ne.
Qed.

Lemma add_edge_ok tid st dep : nodes_ok st → nodes_ok (add_edge tid st dep).
Proof.
  intros [Hwf Hg]. unfold add_edge.
  destruct (graph st !! dep) as [succs|] eqn:E; [|done].
  split; cbn.
  - by apply dict_set_wf.
  - intros n s v Hn Hv. rewrite dict_set_store.
    destruct (decide (tid = v)) as [->|Hne]; [rewrite lookup_insert_eq; eauto|].
    rewrite lookup_insert_ne by done.
    destruct (decide (dep = n)) as [<-|Hne'].
    + rewrite lookup_insert_eq in Hn. simplify_eq. unfold set_add in Hv.
      destruct (decide (tid ∈ succs)); [eauto|].
      apply elem_of_app in Hv as [Hv|Hv%list_elem_of_singleton]; [eauto|congruence].
    + rewrite lookup_insert_ne in Hn by done. eauto.
Qed.

Lemma foldl_preserves {A B : Type} (P : A → Prop) (f : A → B → A) (l : list B) a :
  (∀ a b, P a → P (f a b)) → P a → P (foldl f a l).
Proof. intros Hf. revert a. induction l as [|b l IH]; cbn; auto. Qed.

Lemma build_nodes_ok tasks : nodes_ok (build_nodes tasks).
Proof.
  unfold build_nodes. apply foldl_preserves.
  - intros st t Hst. unfold add_edges. apply foldl_preserves; [|done].
    intros; by apply add_edge_ok.
  - apply foldl_preserves; [intros; by apply declare_node_ok|].
    split; [apply dict_empty_wf|]. intros n s v. cbn. by rewrite lookup_empty.
Qed.

(** ** The [while] loop terminates and never raises *)

Lemma relax_ok vs : ∀ deg q order,
  NoDup (order ++ q) → settled deg (order ++ q) →
  (∀ v, v ∈ vs → is_Some (deg !! v)) →
  ∃ deg' q', relax deg q vs = Ok (deg', q') ∧
    NoDup (order ++ q') ∧ settled deg' (order ++ q') ∧
    (∀ k, is_Some (deg' !! k) ↔ is_Some (deg !! k)).
Proof.
  induction vs as [|v vs IH]; intros deg q order Hnd Hset Hin; cbn.
  { by exists deg, q. }
  destruct (Hin v) as [d E]; [left|]. rewrite E.
  set (deg2 := <[v := d - 1]> deg).
  set (q2 := if decide (d - 1 = 0) then q ++ [v] else q).
  assert (∀ k, is_Some (deg2 !! k) ↔ is_Some (deg !! k)) as Hdom.
  { intros k. unfold deg2. destruct (decide (v = k)) as [<-|Hne].
    - rewrite lookup_insert_eq, E. split; eauto.
    - by rewrite lookup_insert_ne. }
  destruct (IH deg2 q2 order) as (deg' & q' & Hr & Hnd' & Hset' & Hdom').
  - unfold q2. case_decide as Hd; [|done].
    assert (v ∉ order ++ q) as Hv.
    { intros Hv. destruct (Hset v Hv) as (d' & E' & Hle). simplify_eq. lia. }
    rewrite app_assoc. apply NoDup_app. split_and!; [done| |apply NoDup_singleton].
    by intros x Hx ->%list_elem_of_singleton.
  - intros x Hx. unfold deg2. destruct (decide (v = x)) as [<-|Hne].
    + rewrite lookup_insert_eq. eexists; split; [done|].
      unfold q2 in Hx. case_decide as Hd; [lia|].
      destruct (Hset v Hx) as (d' & E' & Hle). simplify_eq. lia.
    + rewrite lookup_insert_ne by done. apply Hset.
      unfold q2 in Hx. case_decide; [|done].
      rewrite app_assoc in Hx.
      apply elem_of_app in Hx as [Hx|Hx%list_elem_of_singleton]; [done|congruence].
  - intros w Hw. apply Hdom, Hin. by right.
  - exists deg', q'. split_and!; [done..|]. intros k. by rewrite Hdom', Hdom.
Qed.

Lemma kahn_ok so g K : NoDup K → ∀ fuel deg q order,
  (∀ k, k ∈ K ↔ is_Some (deg !! k)) →
  (∀ n s v, g !! n = Some s → v ∈ s → is_Some (deg !! v)) →
  NoDup (order ++ q) → settled deg (order ++ q) →
  (length K ≤ fuel + length order)%nat →
  ∃ out, kahn so g fuel deg q order = Ok out ∧ NoDup out ∧
         (∀ x, x ∈ out → x ∈ K) ∧ order `prefix_of` out.
Proof.
  intros HK fuel. induction fuel as [|fuel IH]; intros deg q order Hdom Hg Hnd Hset Hlen.
  - destruct q as [|n q]; cbn.
    + exists order. rewrite app_nil_r in *. split_and!; [done..| |done].
      intros x Hx. apply Hdom. destruct (Hset x Hx) as (d & -> & _). eauto.
    + exfalso.
      assert (order ++ n :: q ⊆+ K) as Hsub.
      { apply NoDup_submseteq; [done|]. intros x Hx. apply Hdom.
        destruct (Hset x Hx) as (d & -> & _). eauto. }
      apply submseteq_length in Hsub. rewrite length_app in Hsub. cbn in *. lia.
  - destruct q as [|n q]; cbn.
    + exists order. rewrite app_nil_r in *. split_and!; [done..| |done].
      intros x Hx. apply Hdom. destruct (Hset x Hx) as (d & -> & _). eauto.
    + assert ((order ++ [n]) ++ q = order ++ n :: q) as Heq by by rewrite <- app_assoc.
      destruct (relax_ok (set_iter so (default [] (g !! n))) deg q (order ++ [n]))
        as (deg' & q' & Hr & Hnd' & Hset' & Hdom'); [by rewrite Heq..| |].
      { intros v Hv. rewrite (set_iter_perm so) in Hv.
        destruct (g !! n) as [s|] eqn:E; [eauto|by apply elem_of_nil in Hv]. }
      rewrite Hr. cbn.
      destruct (IH deg' q' (order ++ [n])) as (out & Hk & Hout & Hin & Hpre); [..|done|done| |].
      * intros k. by rewrite Hdom', Hdom.
      * intros m s v Hm Hv. apply Hdom'. eauto.
      * rewrite length_app. cbn. lia.
      * exists out. split_and!; [done..|].
        etrans; [|done]. by apply prefix_app_r.
Qed.

(** The result does not depend on the fuel, once there is enough of it. *)
Lemma kahn_fuel_mono so g fuel : ∀ deg q order out extra,
  kahn so g fuel deg q order = Ok out →
  kahn so g (fuel + extra) deg q order = Ok out.
Proof.
  induction fuel as [|fuel IH]; intros deg q order out extra H;
    destruct q as [|n q]; cbn in *; try done.
  - by destruct extra.
  - destruct (relax deg q _) as [[deg' q']| |]; cbn in *; try done. by apply IH.
Qed.

(** ** The final loop *)

Lemma append_missing_unreached tasks : ∀ order,
  append_missing order tasks = order ++ unreached order (ids tasks).
Proof.
  induction tasks as [|t tasks IH]; intros order; cbn.
  { by rewrite app_nil_r. }
  unfold append_missing in *. cbn. case_decide; [apply IH|].
  rewrite IH. by rewrite <- app_assoc.
Qed.

Lemma unreached_elem l : ∀ seen x, x ∈ unreached seen l ↔ x ∈ l ∧ x ∉ seen.
Proof.
  induction l as [|y l IH]; intros seen x; cbn.
  { split; [by intros ?%elem_of_nil | by intros [?%elem_of_nil _]]. }
  case_decide as Hy.
  - rewrite IH, elem_of_cons. split; [intros [? ?]; split; [by right|done]|].
    intros [[->|?] ?]; [done|by split].
  - rewrite !elem_of_cons, IH, elem_of_app, list_elem_of_singleton.
    split; [intros [->|[? ?]]; [by split; [left|]|split; [by right|tauto]]|].
    intros [[->|?] ?]; [by left|].
    destruct (decide (x = y)); [by left|right; split; [done|tauto]].
Qed.

Lemma unreached_NoDup l : ∀ seen, NoDup (unreached seen l).
Proof.
  induction l as [|y l IH]; intros seen; cbn; [constructor|].
  case_decide; [apply IH|]. constructor; [|apply IH].
  rewrite unreached_elem, elem_of_app, list_elem_of_singleton. tauto.
Qed.

Lemma unreached_sublist l : ∀ seen, unreached seen l `sublist_of` l.
Proof.
  induction l as [|y l IH]; intros seen; cbn; [constructor|].
  case_decide; [by apply sublist_cons|by apply sublist_skip].
Qed.

Lemma filter_ext_elem {A : Type} (P Q : A → Prop)
    `{!∀ x, Decision (P x)} `{!∀ x, Decision (Q x)} (l : list A) :
  (∀ x, x ∈ l → P x ↔ Q x) → filter P l = filter Q l.
Proof.
  induction l as [|y l IH]; intros Hext; [done|].
  rewrite !filter_cons. rewrite IH by (intros; apply Hext; by right).
  assert (P y ↔ Q y) as Hy by (apply Hext; by left).
  destruct (decide (P y)), (decide (Q y)); tauto.
Qed.

(** On a batch with unique ids the tail is the batch order filtered. *)
Lemma unreached_filter l : ∀ seen,
  NoDup l → unreached seen l = filter (λ x, x ∉ seen) l.
Proof.
  induction l as [|y l IH]; intros seen Hnd; [done|].
  apply NoDup_cons in Hnd as [Hy Hnd]. rewrite filter_cons. cbn [unreached].
  case_decide as Hs.
  - rewrite decide_False by tauto. by apply IH.
  - rewrite decide_True by done. f_equal. rewrite !IH by done.
    apply filter_ext_elem. intros x Hx.
    rewrite elem_of_app, list_elem_of_singleton. split; [tauto|].
    intros ? [?| ->]; done.
Qed.

(** ** What the first two loops build *)

Lemma declare_nodes_spec tasks : ∀ st,
  dict_wf (indeg st) →
  let st' := foldl declare_node st tasks in
  keys (indeg st') = keys (indeg st) ++ unreached (keys (indeg st)) (ids tasks) ∧
  dict_wf (indeg st') ∧
  (∀ k, graph st' !! k =
        match graph st !! k with
        | Some s => Some s
        | None => if decide (k ∈ ids tasks) then Some [] else None
        end) ∧
  (∀ k, store (indeg st') !! k =
        match store (indeg st) !! k with
        | Some d => Some d
        | None => if decide (k ∈ ids tasks) then Some 0 else None
        end).
Proof.
  induction tasks as [|t tasks IH]; intros st Hwf; cbn.
  { rewrite app_nil_r. split_and!; [done..| |]; intros k.
    - destruct (graph st !! k); [done|]. rewrite decide_False; [done|apply not_elem_of_nil].
    - destruct (store (indeg st) !! k); [done|].
      rewrite decide_False; [done|apply not_elem_of_nil]. }
  destruct (IH (declare_node st t)) as (Hk & Hwf' & Hg & Hs).
  { by apply dict_setdefault_wf. }
  split_and!; [|done|..].
  - rewrite Hk. cbn. unfold dict_setdefault.
    destruct Hwf as [_ Hdom].
    destruct (store (indeg st) !! t_id t) eqn:E.
    + rewrite decide_True; [done|]. apply Hdom. rewrite E; eauto.
    + cbn. rewrite decide_False; [by rewrite <- app_assoc|].
      intros Hin%Hdom. rewrite E in Hin. by destruct Hin.
  - intros k. rewrite Hg. cbn.
    destruct (graph st !! t_id t) eqn:E.
    + destruct (graph st !! k) eqn:E'; [done|].
      assert (k ≠ t_id t) by (intros ->; congruence).
      destruct (decide (k ∈ ids tasks)) as [Hin|Hin].
      * rewrite decide_True; [done|by right].
      * rewrite decide_False; [done|]. rewrite elem_of_cons. tauto.
    + destruct (decide (t_id t = k)) as [<-|Hne].
      * rewrite lookup_insert_eq, E. rewrite decide_True; [done|by left].
      * rewrite lookup_insert_ne by done. destruct (graph st !! k); [done|].
        destruct (decide (k ∈ ids tasks)) as [Hin|Hin].
        -- rewrite decide_True; [done|by right].
        -- rewrite decide_False; [done|]. rewrite elem_of_cons. by intros [->|?].
  - intros k. rewrite Hs. cbn. unfold dict_setdefault.
    destruct (store (indeg st) !! t_id t) eqn:E.
    + destruct (store (indeg st) !! k) eqn:E'; [done|].
      assert (k ≠ t_id t) by (intros ->; congruence).
      destruct (decide (k ∈ ids tasks)) as [Hin|Hin].
      * rewrite decide_True; [done|by right].
      * rewrite decide_False; [done|]. rewrite elem_of_cons. tauto.
    + cbn. destruct (decide (t_id t = k)) as [<-|Hne].
      * rewrite lookup_insert_eq, E. rewrite decide_True; [done|by left].
      * rewrite lookup_insert_ne by done. destruct (store (indeg st) !! k); [done|].
        destruct (decide (k ∈ ids tasks)) as [Hin|Hin].
        -- rewrite decide_True; [done|by right].
        -- rewrite decide_False; [done|]. rewrite elem_of_cons. by intros [->|?].
Qed.

Lemma set_add_elem x s v : v ∈ set_add x s ↔ v ∈ s ∨ v = x.
Proof.
  unfold set_add. case_decide.
  - split; [tauto|]. intros [?| ->]; done.
  - by rewrite elem_of_app, list_elem_of_singleton.
Qed.

Lemma set_add_NoDup x s : NoDup s → NoDup (set_add x s).
Proof.
  intros Hnd. unfold set_add. case_decide; [done|].
  apply NoDup_app. split_and!; [done| |apply NoDup_singleton].
  by intros y Hy ->%list_elem_of_singleton.
Qed.

Lemma set_add_idemp x s : set_add x (set_add x s) = set_add x s.
Proof.
  unfold set_add at 1. rewrite decide_True; [done|]. apply set_add_elem. by right.
Qed.

Lemma add_edge_fold I tid ds : ∀ st, dom_is I st → tid ∈ I →
  let st' := foldl (add_edge tid) st ds in
  dom_is I st' ∧ keys (indeg st') = keys (indeg st) ∧
  (∀ v, store (indeg st') !! v =
        (λ d, d + if decide (v = tid)
                  then Z.of_nat (length (filter (λ d, d ∈ I) ds)) else 0)
        <$> store (indeg st) !! v) ∧
  (∀ d, graph st' !! d =
        (λ s, if decide (d ∈ ds) then set_add tid s else s) <$> graph st !! d).
Proof.
  induction ds as [|dep ds IH]; intros st [Hg Hs] Htid; cbn [foldl].
  { cbn. split_and!; [done..| |]; intros k.
    - destruct (store (indeg st) !! k); cbn; [|done]. f_equal. case_decide; lia.
    - destruct (graph st !! k); cbn; [|done]. rewrite decide_False; [done|apply not_elem_of_nil]. }
  destruct (Hs tid) as [_ [d0 E0]]; [done|].
  unfold add_edge at 2 4 6 8. rewrite filter_cons. cbn zeta.
  destruct (graph st !! dep) as [succs|] eqn:E.
  - assert (dep ∈ I) as HI by (apply Hg; rewrite E; eauto).
    rewrite decide_True by done.
    destruct (IH (Nodes (<[dep:=set_add tid succs]> (graph st))
                 (dict_set (indeg st) tid (default 0 (store (indeg st) !! tid) + 1))))
      as (Hdom' & Hk & Hs' & Hg'); [|done|].
    { split; intros k; cbn.
      - rewrite <- Hg. destruct (decide (dep = k)) as [<-|Hne].
        + rewrite lookup_insert_eq, E. split; eauto.
        + by rewrite lookup_insert_ne.
      - rewrite dict_set_store, <- Hs. destruct (decide (tid = k)) as [<-|Hne].
        + rewrite lookup_insert_eq, E0. split; eauto.
        + by rewrite lookup_insert_ne. }
    split_and!; [done|..].
    + rewrite Hk. cbn. apply dict_set_keys. rewrite E0; eauto.
    + intros v. rewrite Hs'. cbn. rewrite dict_set_store, E0. cbn.
      destruct (decide (tid = v)) as [<-|Hne].
      * rewrite lookup_insert_eq, E0. cbn. f_equal. rewrite !decide_True by done. lia.
      * rewrite lookup_insert_ne by done. destruct (store (indeg st) !! v); [|done].
        cbn. f_equal. by rewrite !decide_False by congruence.
    + intros d. rewrite Hg'. cbn. destruct (decide (dep = d)) as [<-|Hne].
      * rewrite lookup_insert_eq, E. cbn. f_equal.
        rewrite (decide_True (P := dep ∈ dep :: ds)) by by left.
        case_decide; [apply set_add_idemp|done].
      * rewrite lookup_insert_ne by done. destruct (graph st !! d); [|done]. cbn. f_equal.
        destruct (decide (d ∈ ds)) as [Hin|Hin].
        -- rewrite decide_True; [done|by right].
        -- rewrite decide_False; [done|]. rewrite elem_of_cons. by intros [->|?].
  - assert (dep ∉ I) as HI.
    { intros Hin%Hg. rewrite E in Hin. by destruct Hin. }
    rewrite decide_False by done.
    destruct (IH st) as (Hdom' & Hk & Hs' & Hg'); [done..|].
    split_and!; [done..|].
    intros d. rewrite Hg'. destruct (graph st !! d) eqn:E'; [|done]. cbn. f_equal.
    assert (d ≠ dep) by (intros ->; congruence).
    destruct (decide (d ∈ ds)) as [Hin|Hin].
    + rewrite decide_True; [done|by right].
    + rewrite decide_False; [done|]. rewrite elem_of_cons. tauto.
Qed.

Lemma preds_in_nil I v : preds_in I [] v = [].
Proof. done. Qed.

Lemma preds_in_cons I t ts v :
  preds_in I (t :: ts) v =
  (if decide (t_id t = v) then filter (λ d, d ∈ I) (depends_on t) else [])
  ++ preds_in I ts v.
Proof. done. Qed.

Lemma elem_of_preds_in I ts d v :
  d ∈ preds_in I ts v ↔ ∃ t, t ∈ ts ∧ t_id t = v ∧ d ∈ depends_on t ∧ d ∈ I.
Proof.
  unfold preds_in. rewrite list_elem_of_In, in_flat_map. split.
  - intros (t & Ht%list_elem_of_In & Hd). exists t. case_decide.
    + apply list_elem_of_In, list_elem_of_filter in Hd. tauto.
    + by destruct Hd.
  - intros (t & Ht & Hv & Hd & HI). exists t. split; [by apply list_elem_of_In|].
    rewrite decide_True by done. apply list_elem_of_In, list_elem_of_filter. tauto.
Qed.

Lemma add_edges_fold I ts : ∀ st, dom_is I st → (∀ t, t ∈ ts → t_id t ∈ I) →
  let st' := foldl add_edges st ts in
  dom_is I st' ∧ keys (indeg st') = keys (indeg st) ∧
  (∀ v, store (indeg st') !! v =
        (λ d, d + Z.of_nat (length (preds_in I ts v))) <$> store (indeg st) !! v) ∧
  (∀ d s, graph st !! d = Some s →
          ∃ s', graph st' !! d = Some s' ∧ (NoDup s → NoDup s') ∧
                ∀ v, v ∈ s' ↔ v ∈ s ∨ d ∈ preds_in I ts v).
Proof.
  induction ts as [|t ts IH]; intros st Hdom Hids; cbn [foldl].
  { cbn. split_and!; [done..| |].
    - intros v. rewrite preds_in_nil.
      destruct (store (indeg st) !! v); cbn; [|done]. f_equal. lia.
    - intros d s E. exists s. split_and!; [done..|]. intros v.
      rewrite preds_in_nil. split; [tauto|]. by intros [?|?%elem_of_nil]. }
  destruct (add_edge_fold I (t_id t) (depends_on t) st) as (Hdom1 & Hk1 & Hs1 & Hg1);
    [done|apply Hids; by left|].
  fold (add_edges st t) in Hdom1, Hk1, Hs1, Hg1.
  destruct (IH (add_edges st t)) as (Hdom2 & Hk2 & Hs2 & Hg2);
    [done|intros; apply Hids; by right|].
  cbn zeta. split_and!; [done|congruence|..].
  - intros v. rewrite Hs2, Hs1. destruct (store (indeg st) !! v); cbn; [|done].
    f_equal. rewrite preds_in_cons, length_app.
    destruct (decide (v = t_id t)) as [->|Hne].
    + rewrite decide_True by done. lia.
    + rewrite (decide_False (P := t_id t = v)) by congruence. cbn. lia.
  - intros d s E.
    assert (d ∈ I) as HI by (apply (proj1 Hdom); rewrite E; eauto).
    destruct (Hg2 d (if decide (d ∈ depends_on t) then set_add (t_id t) s else s))
      as (s' & E' & Hnd & Hin).
    { by rewrite Hg1, E. }
    exists s'. split_and!; [done| |].
    + intros Hs. apply Hnd. case_decide; [by apply set_add_NoDup|done].
    + intros v. rewrite Hin, preds_in_cons, elem_of_app.
      destruct (decide (d ∈ depends_on t)) as [Hd|Hd].
      * rewrite set_add_elem. destruct (decide (t_id t = v)) as [<-|Hne].
        -- rewrite list_elem_of_filter. tauto.
        -- split; [intros [[?|?]|?]; [tauto|congruence|tauto]|].
           intros [?|[?%elem_of_nil|?]]; tauto.
      * case_decide.
        -- rewrite list_elem_of_filter. tauto.
        -- split; [tauto|]. intros [?|[?%elem_of_nil|?]]; tauto.
Qed.

(** The dictionaries after the second loop: the keys of [indeg] are the ids
    at their first occurrence, in batch order; the in-degree of an id counts
    its in-batch dependency references; the successors of [d] are the ids
    that reference [d]. *)
Lemma build_nodes_spec tasks :
  let st := build_nodes tasks in
  keys (indeg st) = unreached [] (ids tasks) ∧
  (∀ v, store (indeg st) !! v =
        if decide (v ∈ ids tasks)
        then Some (Z.of_nat (length (preds tasks v))) else None) ∧
  (∀ d, d ∉ ids tasks → graph st !! d = None) ∧
  (∀ d, d ∈ ids tasks →
        ∃ s, graph st !! d = Some s ∧ NoDup s ∧ ∀ v, v ∈ s ↔ d ∈ preds tasks v).
Proof.
  destruct (declare_nodes_spec tasks (Nodes ∅ dict_empty)) as (Hk & Hwf & Hg & Hs).
  { apply dict_empty_wf. }
  cbn in Hk, Hg, Hs.
  set (st1 := foldl declare_node (Nodes ∅ dict_empty) tasks) in *.
  assert (dom_is (ids tasks) st1) as Hdom.
  { split; intros k.
    - rewrite Hg, lookup_empty. case_decide; split; eauto; [by intros [? ?]|done].
    - rewrite Hs, lookup_empty. case_decide; split; eauto; [by intros [? ?]|done]. }
  destruct (add_edges_fold (ids tasks) tasks st1) as (Hdom2 & Hk2 & Hs2 & Hg2); [done| |].
  { intros t Ht. by apply list_elem_of_fmap_2. }
  cbn zeta. unfold build_nodes. fold st1.
  set (st2 := foldl add_edges st1 tasks) in *.
  split_and!.
  - by rewrite Hk2, Hk.
  - intros v. rewrite Hs2, Hs, lookup_empty. case_decide; [|done]. cbn. f_equal.
  - intros d Hd.
    destruct Hdom2 as [Hgd _]. destruct (graph st2 !! d) eqn:E; [|done].
    exfalso. apply Hd, Hgd. eauto.
  - intros d Hd. destruct (Hg2 d []) as (s & E & Hnd & Hin).
    { rewrite Hg, lookup_empty. by rewrite decide_True. }
    exists s. split_and!; [done|apply Hnd; constructor|].
    intros v. rewrite Hin. split; [by intros [?%elem_of_nil|?]|tauto].
Qed.

(** ** The order is total: C1 *)

Lemma kahn_phase_ok so tasks :
  ∃ reached, kahn_phase so tasks = Ok reached ∧ NoDup reached ∧
             ∀ x, x ∈ reached → x ∈ ids tasks.
Proof.
  destruct (build_nodes_ok tasks) as [[Hnd Hk] Hg].
  destruct (build_nodes_spec tasks) as (Hkeys & _).
  unfold kahn_phase. set (st := build_nodes tasks) in *.
  destruct (kahn_ok so (graph st) (keys (indeg st)) Hnd (length (keys (indeg st)))
              (store (indeg st)) (ready (indeg st)) [])
    as (out & Hout & Hnd' & Hin & _); [done|done| | |lia|].
  - cbn. rewrite ready_filter by done. by apply NoDup_filter.
  - intros x. cbn. rewrite ready_filter by done.
    intros [? _]%list_elem_of_filter. by exists 0.
  - exists out. split_and!; [done..|]. intros x Hx%Hin.
    rewrite Hkeys in Hx. by apply unreached_elem in Hx as [? _].
Qed.

Lemma topo_sort_order_shape so tasks :
  ∃ reached,
    kahn_phase so tasks = Ok reached ∧
    topo_sort so tasks = Ok (reached ++ unreached reached (ids tasks)) ∧
    NoDup (reached ++ unreached reached (ids tasks)) ∧
    (∀ x, x ∈ reached ++ unreached reached (ids tasks) ↔ x ∈ ids tasks).
Proof.
  destruct (kahn_phase_ok so tasks) as (reached & Hk & Hnd & Hin).
  exists reached. split_and!; [done| | |].
  - unfold topo_sort. rewrite Hk. cbn. by rewrite append_missing_unreached.
  - apply NoDup_app. split_and!; [done| |apply unreached_NoDup].
    intros x Hx [_ Hx']%unreached_elem. done.
  - intros x. rewrite elem_of_app, unreached_elem. split; [intros [?|[? _]]; auto|].
    intros Hx. destruct (decide (x ∈ reached)); auto.
Qed.

(** On a batch with unique ids the result is a permutation of the ids. *)
Lemma topo_sort_permutation so tasks order :
  NoDup (ids tasks) → topo_sort so tasks = Ok order → order ≡ₚ ids tasks.
Proof.
  intros Hids Ho.
  destruct (topo_sort_order_shape so tasks) as (reached & Hk & Ht & Hnd & Hin).
  rewrite Ht in Ho. injection Ho as <-. by apply NoDup_Permutation.
Qed.

(** C1.  For every batch and every iteration order of the successor sets,
    [topo_sort] returns (it neither raises nor runs out of fuel).  Its result
    is the list [reached] produced by the queue loop followed by the ids the
    loop never reached, which come in batch order (each at its first
    occurrence).  The result has no duplicates and its elements are exactly
    the ids of the batch. *)
Theorem topo_sort_total (so : set_order) (tasks : list task) :
  ∃ reached tail,
    kahn_phase so tasks = Ok reached ∧
    tail = unreached reached (ids tasks) ∧
    topo_sort so tasks = Ok (reached ++ tail) ∧
    NoDup (reached ++ tail) ∧
    (∀ x, x ∈ reached ++ tail ↔ x ∈ ids tasks) ∧
    (∀ x, x ∈ tail ↔ x ∈ ids tasks ∧ x ∉ reached) ∧
    tail `sublist_of` ids tasks.
Proof.
  destruct (topo_sort_order_shape so tasks) as (reached & Hk & Ht & Hnd & Hin).
  exists reached, (unreached reached (ids tasks)).
  split_and!; [done..| |].
  - intros x. apply unreached_elem.
  - apply unreached_sublist.
Qed.

(** ** Dependencies come first on acyclic batches *)

Lemma before_app order l a b : before order a b → before (order ++ l) a b.
Proof.
  intros (i & j & Hi & Hj & Hlt). exists i, j.
  split_and!; [by apply lookup_app_l_Some..|done].
Qed.

Lemma before_snoc order a n : a ∈ order → before (order ++ [n]) a n.
Proof.
  intros (i & Hi)%list_elem_of_lookup. exists i, (length order).
  split_and!; [by apply lookup_app_l_Some| |by eapply lookup_lt_Some].
  by rewrite list_lookup_middle.
Qed.

(** What [relax] does when the successors are pairwise different: each of
    them loses one, and those that had exactly one left join the queue, in
    the order of iteration. *)
Lemma relax_spec vs : ∀ deg q,
  NoDup vs → (∀ v, v ∈ vs → is_Some (deg !! v)) →
  ∃ deg', relax deg q vs = Ok (deg', q ++ filter (λ v, deg !! v = Some 1) vs) ∧
          ∀ k, deg' !! k = if decide (k ∈ vs) then (λ d, d - 1) <$> deg !! k
                           else deg !! k.
Proof.
  induction vs as [|v vs IH]; intros deg q Hnd Hin.
  { exists deg. cbn. rewrite app_nil_r. split; [done|]. intros k.
    rewrite decide_False; [done|apply not_elem_of_nil]. }
  apply NoDup_cons in Hnd as [Hv Hnd].
  destruct (Hin v) as [d E]; [left|]. cbn [relax]. rewrite E.
  destruct (IH (<[v := d - 1]> deg) (if decide (d - 1 = 0) then q ++ [v] else q))
    as (deg' & Hr & Hdeg); [done| |].
  { intros w Hw. rewrite lookup_insert_ne by (by intros ->). apply Hin. by right. }
  exists deg'. split.
  - rewrite Hr. do 2 f_equal. rewrite filter_cons.
    rewrite (filter_ext_elem (λ w, <[v:=d - 1]> deg !! w = Some 1)
               (λ w, deg !! w = Some 1)).
    2:{ intros w Hw. by rewrite lookup_insert_ne by (by intros ->). }
    destruct (decide (d - 1 = 0)) as [Hd|Hd].
    + rewrite decide_True by (rewrite E; f_equal; lia). by rewrite <- app_assoc.
    + rewrite decide_False; [done|]. rewrite E. intros [=]. lia.
  - intros k. rewrite Hdeg. destruct (decide (v = k)) as [<-|Hne].
    + rewrite decide_False by done. rewrite lookup_insert_eq, E.
      rewrite decide_True; [done|by left].
    + rewrite lookup_insert_ne by done.
      destruct (decide (k ∈ vs)) as [Hk|Hk].
      * rewrite decide_True; [done|by right].
      * rewrite decide_False; [done|]. rewrite elem_of_cons. by intros [->|?].
Qed.

Lemma pending_snoc_length (order l : list string) (n : string) :
  NoDup l → n ∉ order →
  Z.of_nat (length (filter (λ d, d ∉ order ++ [n]) l)) =
  Z.of_nat (length (filter (λ d, d ∉ order) l)) - (if decide (n ∈ l) then 1 else 0).
Proof.
  intros Hnd Hn. induction l as [|a l IH]; [done|].
  apply NoDup_cons in Hnd as [Ha Hnd]. specialize (IH Hnd).
  rewrite !filter_cons. destruct (decide (a = n)) as [->|Hne].
  - rewrite (decide_True (P := n ∈ n :: l)) by by left.
    rewrite decide_False in IH by done.
    rewrite (decide_False (P := n ∉ order ++ [n])).
    2:{ intros H. apply H, elem_of_app. right. by left. }
    rewrite decide_True by done. cbn [length]. lia.
  - assert (a ∉ order ++ [n] ↔ a ∉ order) as Hiff.
    { rewrite elem_of_app, list_elem_of_singleton. tauto. }
    assert ((if decide (n ∈ a :: l) then 1 else 0) = (if decide (n ∈ l) then 1 else 0))
      as ->.
    { destruct (decide (n ∈ l)).
      - rewrite decide_True; [done|by right].
      - rewrite decide_False; [done|]. rewrite elem_of_cons. by intros [->|?]. }
    destruct (decide (a ∉ order)).
    + rewrite decide_True by tauto. cbn [length]. lia.
    + rewrite decide_False by tauto. done.
Qed.

Lemma filter_length_zero {A : Type} (P : A → Prop) `{!∀ x, Decision (P x)} (l : list A) :
  length (filter P l) = 0%nat → filter P l = [].
Proof. by destruct (filter P l). Qed.

Lemma preds_in_ids tasks d v : d ∈ preds tasks v → v ∈ ids tasks ∧ d ∈ ids tasks.
Proof.
  intros (t & Ht & <- & _ & Hd)%elem_of_preds_in. split; [|done].
  by apply list_elem_of_fmap_2.
Qed.

Lemma pending_nil_elem tasks order v d :
  pending tasks order v = [] → d ∈ preds tasks v → d ∈ order.
Proof.
  intros Hp Hd. destruct (decide (d ∈ order)) as [|Hn]; [done|].
  assert (d ∈ pending tasks order v) as Hin by by apply list_elem_of_filter.
  rewrite Hp in Hin. by apply elem_of_nil in Hin.
Qed.

Section queue_loop.
Context (so : set_order) (tasks : list task) (g : gmap string (list string)).
Hypothesis preds_NoDup : ∀ v, NoDup (preds tasks v).
Hypothesis successors : ∀ d, d ∈ ids tasks →
  ∃ s, g !! d = Some s ∧ NoDup s ∧ ∀ v, v ∈ s ↔ d ∈ preds tasks v.

Lemma topo_inv_step deg n q order :
  topo_inv tasks deg (n :: q) order →
  ∃ deg' q', relax deg q (set_iter so (default [] (g !! n))) = Ok (deg', q') ∧
             topo_inv tasks deg' q' (order ++ [n]).
Proof.
  intros [Hdeg Hready Hsorted Hnd].
  destruct (Hready n) as [[Hn Hpn] _]; [apply elem_of_app; right; by left|].
  destruct (successors n Hn) as (s & Eg & Hs & Hsucc). rewrite Eg. cbn [default].
  set (vs := set_iter so s).
  assert (NoDup vs) as Hvs by (unfold vs; by rewrite set_iter_perm).
  assert (∀ v, v ∈ vs ↔ n ∈ preds tasks v) as Hvs_in.
  { intros v. unfold vs. by rewrite set_iter_perm. }
  assert (n ∉ order) as Hno.
  { apply NoDup_app in Hnd as (_ & Hd & _). intros Hin. apply (Hd n Hin). by left. }
  assert (∀ v, Z.of_nat (length (pending tasks (order ++ [n]) v)) =
               Z.of_nat (length (pending tasks order v))
               - (if decide (v ∈ vs) then 1 else 0)) as Hlen.
  { intros v. unfold pending. rewrite pending_snoc_length by done.
    destruct (decide (v ∈ vs)) as [Hv|Hv].
    - rewrite decide_True; [done|by apply Hvs_in].
    - rewrite decide_False; [done|]. by rewrite <- Hvs_in. }
  destruct (relax_spec vs deg q Hvs) as (deg' & Hr & Hdeg').
  { intros v Hv. apply Hvs_in, preds_in_ids in Hv as [Hv _].
    rewrite (Hdeg v Hv). eauto. }
  exists deg', (q ++ filter (λ v, deg !! v = Some 1) vs). split; [done|].
  assert (∀ v, v ∈ (order ++ [n]) ++ q ++ filter (λ v, deg !! v = Some 1) vs
               ↔ v ∈ order ++ n :: q ∨ (v ∈ vs ∧ deg !! v = Some 1)) as Hmem.
  { intros v. rewrite !elem_of_app, list_elem_of_singleton, elem_of_cons,
      list_elem_of_filter. tauto. }
  split.
  - intros v Hv. rewrite Hdeg', (Hdeg v Hv), Hlen.
    case_decide; cbn; f_equal; lia.
  - intros v. rewrite Hmem. split.
    + intros [Hv|[Hv E]].
      * apply Hready in Hv as [Hv Hp]. split; [done|].
        apply filter_length_zero. specialize (Hlen v). unfold pending in Hlen, Hp.
        rewrite Hp in Hlen. cbn in Hlen. case_decide; lia.
      * assert (v ∈ ids tasks) as Hid by (apply Hvs_in, preds_in_ids in Hv; tauto).
        split; [done|]. apply filter_length_zero. specialize (Hlen v).
        rewrite (Hdeg v Hid) in E. rewrite decide_True in Hlen by done.
        unfold pending in *. injection E as E. lia.
    + intros [Hid Hp]. specialize (Hlen v). rewrite Hp in Hlen. cbn in Hlen.
      destruct (decide (v ∈ vs)) as [Hv|Hv].
      * right. split; [done|]. rewrite (Hdeg v Hid). f_equal. lia.
      * left. apply Hready. split; [done|]. apply filter_length_zero.
        unfold pending in *. lia.
  - intros v d [Hv| ->%list_elem_of_singleton]%elem_of_app Hd.
    + by apply before_app, Hsorted.
    + by apply before_snoc, (pending_nil_elem tasks order n).
  - replace ((order ++ [n]) ++ q ++ filter (λ v, deg !! v = Some 1) vs)
      with ((order ++ n :: q) ++ filter (λ v, deg !! v = Some 1) vs)
      by (by rewrite <- !app_assoc).
    apply NoDup_app. split_and!; [done| |by apply NoDup_filter].
    intros v Hv [E Hvv]%list_elem_of_filter.
    apply Hready in Hv as [Hid Hp]. rewrite (Hdeg v Hid), Hp in E. done.
Qed.

Lemma kahn_topo fuel : ∀ deg q order out,
  topo_inv tasks deg q order → kahn so g fuel deg q order = Ok out →
  ∃ deg', topo_inv tasks deg' [] out.
Proof.
  induction fuel as [|fuel IH]; intros deg q order out Hinv Hk;
    destruct q as [|n q]; cbn in Hk; try done.
  - injection Hk as <-. eauto.
  - injection Hk as <-. eauto.
  - destruct (topo_inv_step deg n q order Hinv) as (deg' & q' & Hr & Hinv').
    rewrite Hr in Hk. cbn in Hk. eauto.
Qed.
End queue_loop.

(** In a non-empty finite set where every element has a predecessor in the
    set, some element reaches itself. *)
Lemma no_source_cycle {A : Type} `{!EqDecision A} (R : relation A) (L : list A) :
  L ≠ [] → (∀ v, v ∈ L → ∃ d, d ∈ L ∧ tc R d v) → ∃ x, tc R x x.
Proof.
  induction L as [|a L IH]; intros Hne Hpred; [done|].
  destruct (Hpred a) as (da & Hda & Ha); [by left|].
  destruct (decide (da = a)) as [->|Hda_ne]; [by exists a|].
  apply elem_of_cons in Hda as [?|Hda]; [done|].
  apply IH.
  - intros ->. by apply elem_of_nil in Hda.
  - intros v Hv. destruct (Hpred v) as (d & Hd & Hdv); [by right|].
    apply elem_of_cons in Hd as [->|Hd].
    + exists da. split; [done|]. by etrans.
    + by exists d.
Qed.

Lemma preds_in_absent I ts v : v ∉ ids ts → preds_in I ts v = [].
Proof.
  induction ts as [|t ts IH]; intros Hv; [done|].
  rewrite preds_in_cons. cbn in Hv. rewrite not_elem_of_cons in Hv.
  destruct Hv as [Hne Hv]. rewrite decide_False by done. by apply IH.
Qed.

Lemma well_formed_distinct_references tasks :
  well_formed tasks → distinct_references tasks.
Proof.
  intros [Hids Hdeps] v. unfold preds. generalize (ids tasks) at 1. intros I.
  induction tasks as [|t ts IH]; [constructor|].
  cbn in Hids. apply NoDup_cons in Hids as [Ht Hids].
  apply Forall_cons in Hdeps as [Hd Hdeps].
  rewrite preds_in_cons. case_decide as Hv.
  - subst v. rewrite preds_in_absent by done. rewrite app_nil_r. by apply NoDup_filter.
  - by apply IH.
Qed.

Lemma filter_not_in_nil (l : list string) : filter (λ d, d ∉ []) l = l.
Proof.
  induction l as [|a l IH]; [done|]. rewrite filter_cons_True; [by f_equal|].
  apply not_elem_of_nil.
Qed.

Lemma topo_inv_init tasks :
  let st := build_nodes tasks in
  topo_inv tasks (store (indeg st)) (ready (indeg st)) [].
Proof.
  destruct (build_nodes_ok tasks) as [Hwf _].
  destruct (build_nodes_spec tasks) as (Hk & Hs & _).
  cbn zeta. set (st := build_nodes tasks) in *.
  assert (∀ v, pending tasks [] v = preds tasks v) as Hp.
  { intros v. apply filter_not_in_nil. }
  split.
  - intros v Hv. by rewrite Hs, decide_True, Hp.
  - intros v. cbn. rewrite ready_filter, list_elem_of_filter, Hk, unreached_elem, Hs, Hp by done.
    case_decide as Hv; [|split; [by intros [? _]|tauto]].
    split.
    + intros [[= E] _]. split; [done|]. destruct (preds tasks v); [done|]. cbn in E. lia.
    + intros [_ ->]. split_and!; [done..|]. apply not_elem_of_nil.
  - intros v d Hv. by apply elem_of_nil in Hv.
  - cbn. rewrite ready_filter by done. apply NoDup_filter, Hwf.
Qed.

(** On an acyclic batch without repeated references the queue loop reaches
    every task, and the list it produces has every task after its in-batch
    dependencies. *)
Lemma kahn_phase_sorted so tasks reached :
  distinct_references tasks → acyclic tasks → kahn_phase so tasks = Ok reached →
  (∀ v, v ∈ ids tasks → v ∈ reached) ∧
  (∀ v d, v ∈ reached → d ∈ preds tasks v → before reached d v).
Proof.
  intros Hwf Hac Hk. unfold kahn_phase in Hk.
  destruct (build_nodes_spec tasks) as (_ & _ & _ & Hg).
  destruct (kahn_topo so tasks (graph (build_nodes tasks)) Hwf Hg _ _ _ _ _
              (topo_inv_init tasks) Hk) as (deg' & [Hdeg Hready Hsorted Hnd]).
  split; [|done].
  intros v Hv. destruct (decide (v ∈ reached)) as [|Hn]; [done|]. exfalso.
  destruct (no_source_cycle (edge tasks) (filter (λ x, x ∉ reached) (ids tasks)))
    as (x & Hx).
  - intros Hnil. assert (v ∈ filter (λ x, x ∉ reached) (ids tasks)) as Hin
      by by apply list_elem_of_filter.
    rewrite Hnil in Hin. by apply elem_of_nil in Hin.
  - intros w [Hw Hwid]%list_elem_of_filter.
    destruct (pending tasks reached w) as [|d l] eqn:E.
    { exfalso. apply Hw. specialize (Hready w). rewrite app_nil_r in Hready.
      by apply Hready. }
    assert (d ∈ pending tasks reached w) as Hd by (rewrite E; by left).
    apply list_elem_of_filter in Hd as [Hdn Hd].
    exists d. split; [|by apply tc_once].
    apply list_elem_of_filter. split; [done|]. by apply preds_in_ids in Hd as [_ ?].
  - by apply (Hac x).
Qed.

Lemma acyclic_by_rank tasks (rank : string → nat) :
  Forall (λ t, Forall (λ d, d ∈ ids tasks → (rank d < rank (t_id t))%nat)
                      (depends_on t)) tasks →
  acyclic tasks.
Proof.
  intros Hrank.
  assert (∀ x y, tc (edge tasks) x y → (rank x < rank y)%nat) as Htc.
  { assert (∀ x y, edge tasks x y → (rank x < rank y)%nat) as Hedge.
    { intros x y (t & Ht & <- & Hd & Hx)%elem_of_preds_in.
      rewrite Forall_forall in Hrank. specialize (Hrank t Ht).
      rewrite Forall_forall in Hrank. by apply Hrank. }
    induction 1 as [x y H|x y z H _ IH]; [by apply Hedge|].
    apply Hedge in H. lia. }
  intros x Hx%Htc. lia.
Qed.

(** C2.  On a batch of the data model's shape (unique ids, every
    [depends_on] without repetition) whose dependency graph, restricted to
    the references that name a task of the batch, has no cycle, [topo_sort]
    returns an order without duplicates in which every such dependency of a
    task has a position strictly before the position of the task. *)
Theorem topo_sort_dependencies_first (so : set_order) (tasks : list task) :
  well_formed tasks → acyclic tasks →
  ∃ order,
    topo_sort so tasks = Ok order ∧ NoDup order ∧
    ∀ t d, t ∈ tasks → d ∈ depends_on t → d ∈ ids tasks →
           before order d (t_id t).
Proof.
  intros Hwf Hac.
  destruct (topo_sort_order_shape so tasks) as (reached & Hk & Hshape & Hnd & _).
  destruct (kahn_phase_sorted so tasks reached
              (well_formed_distinct_references tasks Hwf) Hac Hk)
    as [Hall Hsorted].
  eexists. split_and!; [done..|]. intros t d Ht Hd Hid.
  apply before_app, Hsorted.
  - by apply Hall, list_elem_of_fmap_2.
  - apply elem_of_preds_in. by exists t.
Qed.

(** * Properties of the calendar scheduler *)

(** ** Loops that may raise *)

Lemma comprehension_fmap {A B : Type} (f : A → outcome B) (g : A → B) (l : list A) :
  (∀ x, x ∈ l → f x = Ok (g x)) → comprehension f l = Ok (g <$> l).
Proof.
  induction l as [|x l IH]; intros H; [done|].
  cbn. rewrite (H x) by by left. cbn. rewrite IH by (intros; apply H; by right). done.
Qed.

Lemma comprehension_Forall2 {A B : Type} (f : A → outcome B) (l : list A) (r : list B) :
  comprehension f l = Ok r → Forall2 (λ x y, f x = Ok y) l r.
Proof.
  revert r. induction l as [|x l IH]; intros r H; cbn in H.
  { injection H as <-. constructor. }
  destruct (f x) as [y| |] eqn:E; cbn in H; try done.
  destruct (comprehension f l) as [ys| |]; cbn in H; try done.
  injection H as <-. constructor; auto.
Qed.

Lemma for_each_app {A S : Type} (body : S → A → outcome S) (l1 l2 : list A) (s : S) :
  for_each body s (l1 ++ l2) = s' ← for_each body s l1; for_each body s' l2.
Proof.
  revert s. induction l1 as [|x l1 IH]; intros s; [done|].
  cbn. destruct (body s x); cbn; [apply IH|done..].
Qed.

(** ** The task dictionary *)

Lemma task_map_lookup tasks k t :
  task_map tasks !! k = Some t → t ∈ tasks ∧ t_id t = k.
Proof.
  unfold task_map.
  assert (∀ m : gmap string task,
            foldl (λ m t, <[t_id t := t]> m) m tasks !! k = Some t →
               (t ∈ tasks ∧ t_id t = k) ∨ m !! k = Some t) as H.
  { induction tasks as [|a tasks IH]; intros m Hm; cbn in Hm; [by right|].
    destruct (IH _ Hm) as [[? ?]|Hl]; [left; split; [by right|done]|].
    destruct (decide (t_id a = k)) as [<-|Hne].
    - rewrite lookup_insert_eq in Hl. injection Hl as <-. left. split; [by left|done].
    - rewrite lookup_insert_ne in Hl by done. by right. }
  intros Hm. destruct (H ∅ Hm) as [?|Hl]; [done|]. by rewrite lookup_empty in Hl.
Qed.


(** ** The earliest-start pass *)

Lemma dep_ends_spec (e u : gmap string Z) (deps : list string) :
  (∀ d, is_Some (e !! d) → is_Some (u !! d)) →
  dep_ends e u deps =
  Ok ((λ d, default 0 (e !! d) + default 0 (u !! d))
      <$> filter (λ d, is_Some (e !! d)) deps).
Proof.
  intros Hsub. unfold dep_ends. apply comprehension_fmap.
  intros d [He _]%list_elem_of_filter. unfold getitem.
  destruct (Hsub d He) as [y ->]. destruct He as [x ->]. done.
Qed.

Lemma snoc_decompose {A : Type} (l pre post : list A) (x y : A) :
  l ++ [x] = pre ++ y :: post →
  (post = [] ∧ y = x ∧ pre = l) ∨ (∃ post', post = post' ++ [x] ∧ l = pre ++ y :: post').
Proof.
  destruct post as [|z post _] using rev_ind.
  - intros H. apply app_inj_tail in H as [-> ->]. by left.
  - intros H. right. exists post.
    rewrite app_comm_cons, app_assoc in H. by apply app_inj_tail in H as [-> ->].
Qed.

Lemma plan_task_inv parse tmap start_dt done st tid st' :
  starts_inv tmap start_dt done st → tid ∉ done →
  plan_task parse tmap start_dt st tid = Ok st' →
  starts_inv tmap start_dt (done ++ [tid]) st'.
Proof.
  intros [Hest Hdur Hstart] Htid Hrun. unfold plan_task in Hrun.
  destruct (getitem tmap tid) as [t| |] eqn:Et; cbn in Hrun; try done.
  destruct (float_ parse _) as [h| |]; cbn in Hrun; try done.
  rewrite dep_ends_spec in Hrun.
  2:{ intros d Hd. destruct (decide (tid = d)) as [<-|Hne].
      - rewrite lookup_insert_eq; eauto.
      - rewrite lookup_insert_ne by done. by apply Hdur, Hest. }
  cbn in Hrun. injection Hrun as <-.
  match goal with |- starts_inv _ _ _ ?s => set (st' := s) end.
  assert (∀ d, d ≠ tid → est st' !! d = est st !! d) as Hest'.
  { intros d Hd. unfold st'. cbn. by rewrite lookup_insert_ne. }
  assert (∀ d, d ≠ tid → dur st' !! d = dur st !! d) as Hdur'.
  { intros d Hd. unfold st'. cbn. by rewrite lookup_insert_ne. }
  assert (∀ d, d ∈ done → finish st' d = finish st d) as Hfin.
  { intros d Hd. unfold finish.
    assert (d ≠ tid) by (by intros ->). by rewrite Hest', Hdur'. }
  split.
  - intros d. rewrite elem_of_app, list_elem_of_singleton, <- Hest.
    destruct (decide (d = tid)) as [->|Hne].
    + unfold st'. cbn. rewrite lookup_insert_eq. split; eauto.
    + rewrite Hest' by done. split; [auto|]. by intros [?| ->].
  - intros d. rewrite elem_of_app, list_elem_of_singleton, <- Hdur.
    destruct (decide (d = tid)) as [->|Hne].
    + unfold st'. cbn. rewrite lookup_insert_eq. split; eauto.
    + rewrite Hdur' by done. split; [auto|]. by intros [?| ->].
  - intros pre tid0 post t0 Hsplit Ht0.
    apply snoc_decompose in Hsplit as [(-> & -> & ->)|(post' & -> & ->)].
    + unfold getitem in Et. rewrite Ht0 in Et. injection Et as ->.
      unfold st' at 1. cbn [est]. rewrite lookup_insert_eq. do 2 f_equal.
      rewrite (filter_ext_elem (λ d, is_Some (est st !! d)) (λ d, d ∈ done))
        by (intros; apply Hest).
      apply list_fmap_ext. intros i d Hd.
      apply list_elem_of_lookup_2, list_elem_of_filter in Hd as [Hd _].
      rewrite Hfin by done. unfold finish.
      assert (tid ≠ d) by (by intros ->). by rewrite lookup_insert_ne.
    + assert (tid0 ≠ tid) as Hne.
      { intros ->. apply Htid, elem_of_app. right. by left. }
      rewrite Hest' by done. rewrite (Hstart pre tid0 post' t0) by done.
      do 2 f_equal. apply list_fmap_ext. intros i d Hd.
      apply list_elem_of_lookup_2, list_elem_of_filter in Hd as [Hd _].
      symmetry. apply Hfin, elem_of_app. by left.
Qed.

Lemma earliest_starts_from parse tmap start_dt order : ∀ done st st',
  starts_inv tmap start_dt done st → NoDup (done ++ order) →
  for_each (plan_task parse tmap start_dt) st order = Ok st' →
  starts_inv tmap start_dt (done ++ order) st'.
Proof.
  induction order as [|tid order IH]; intros done st st' Hinv Hnd Hrun; cbn in Hrun.
  { injection Hrun as <-. by rewrite app_nil_r. }
  destruct (plan_task parse tmap start_dt st tid) as [s1| |] eqn:E; cbn in Hrun; try done.
  replace (done ++ tid :: order) with ((done ++ [tid]) ++ order) in *
    by (by rewrite <- app_assoc).
  apply (IH _ s1); [|done..].
  apply (plan_task_inv parse tmap start_dt done st tid); [done| |done].
  apply NoDup_app in Hnd as (Hnd & _ & _). apply NoDup_app in Hnd as (_ & Hd & _).
  intros Hin. apply (Hd tid Hin). by left.
Qed.

Lemma starts_inv_empty tmap start_dt : starts_inv tmap start_dt [] (Times ∅ ∅).
Proof.
  split; cbn.
  - intros d. rewrite lookup_empty. split; [by intros [? ?]|by intros ?%elem_of_nil].
  - intros d. rewrite lookup_empty. split; [by intros [? ?]|by intros ?%elem_of_nil].
  - intros pre tid post t H. by destruct pre.
Qed.

Lemma earliest_starts_inv parse tmap start_dt order tm :
  NoDup order → earliest_starts parse tmap start_dt order = Ok tm →
  starts_inv tmap start_dt order tm.
Proof.
  intros Hnd Hrun.
  apply (earliest_starts_from parse tmap start_dt order [] (Times ∅ ∅)); [|done..].
  apply starts_inv_empty.
Qed.

(** ** One run of [schedule_tasks], step by step *)

Lemma schedule_plan_steps so parse tasks start_dt deadline whpd p :
  schedule_plan so parse tasks start_dt deadline whpd = Ok p →
  topo_sort so tasks = Ok (p_order p) ∧
  earliest_starts parse (task_map tasks) start_dt (p_order p) = Ok (p_times p) ∧
  compression_ratio parse (task_map tasks) (p_order p) (p_times p) start_dt
    deadline whpd = Ok (p_ratio p) ∧
  comprehension (materialize parse (task_map tasks) (p_times p) (p_ratio p))
    (p_order p) = Ok (p_rows p).
Proof.
  unfold schedule_plan. intros H.
  destruct (topo_sort so tasks) as [order| |] eqn:E1; cbn in H; try done.
  destruct (earliest_starts _ _ _ order) as [tm| |] eqn:E2; cbn in H; try done.
  destruct (compression_ratio _ _ order tm _ _ _) as [ratio| |] eqn:E3;
    cbn in H; try done.
  destruct (comprehension _ order) as [rows| |] eqn:E4; cbn in H; try done.
  injection H as <-. done.
Qed.

Lemma topo_sort_NoDup so tasks order : topo_sort so tasks = Ok order → NoDup order.
Proof.
  intros Ho. destruct (topo_sort_order_shape so tasks) as (reached & _ & Ht & Hnd & _).
  rewrite Ht in Ho. by injection Ho as <-.
Qed.

Lemma topo_sort_elem so tasks order x :
  topo_sort so tasks = Ok order → x ∈ order ↔ x ∈ ids tasks.
Proof.
  intros Ho. destruct (topo_sort_order_shape so tasks) as (reached & _ & Ht & _ & Hin).
  rewrite Ht in Ho. injection Ho as <-. apply Hin.
Qed.

Lemma pymax_nil d : pymax d [] = d.
Proof. done. Qed.

(** [pymax] is the greatest element of a non-empty list. *)
Lemma pymax_upper d l x : x ∈ l → x ≤ pymax d l.
Proof.
  destruct l as [|a l]; [by intros ?%elem_of_nil|]. cbn.
  assert (∀ l a, a ≤ foldl Z.max a l ∧ ∀ x, x ∈ l → x ≤ foldl Z.max a l) as H.
  { clear. induction l as [|b l IH]; intros a; cbn.
    - split; [lia|]. by intros x ?%elem_of_nil.
    - destruct (IH (Z.max a b)) as [H1 H2]. split; [lia|].
      intros x [->|Hx]%elem_of_cons; [lia|auto]. }
  destruct (H l a) as [H1 H2]. intros [->|Hx]%elem_of_cons; auto.
Qed.

Lemma pymax_elem d l : l ≠ [] → pymax d l ∈ l.
Proof.
  destruct l as [|a l]; [done|]. intros _. cbn.
  assert (∀ l a, foldl Z.max a l = a ∨ foldl Z.max a l ∈ l) as H.
  { clear. induction l as [|b l IH]; intros a; cbn; [by left|].
    destruct (IH (Z.max a b)) as [->|H]; [|right; by right].
    destruct (Z.max_spec a b) as [[_ ->]|[_ ->]]; [right; by left|by left]. }
  destruct (H l a) as [->|?]; [by left|by right].
Qed.

Lemma before_split pre tid post d :
  NoDup (pre ++ tid :: post) → before (pre ++ tid :: post) d tid → d ∈ pre.
Proof.
  intros Hnd (i & j & Hi & Hj & Hlt).
  assert (j = length pre) as ->.
  { eapply NoDup_lookup; [done..|]. by rewrite list_lookup_middle. }
  apply list_elem_of_lookup. exists i. by rewrite lookup_app_l in Hi.
Qed.

Lemma for_each_app_Ok {A S : Type} (body : S → A → outcome S) (l1 l2 : list A) (s s' : S) :
  for_each body s (l1 ++ l2) = Ok s' →
  ∃ s1, for_each body s l1 = Ok s1 ∧ for_each body s1 l2 = Ok s'.
Proof.
  rewrite for_each_app. destruct (for_each body s l1) as [s1| |]; cbn; try done. eauto.
Qed.

(** C3.  In a run of [schedule_tasks], the earliest start of a task is the
    greatest end (earliest start plus duration) among its known
    dependencies, those that the order places before it; references to ids
    that are not in the batch are never among them.  With no known
    dependency, and in particular with an empty [depends_on], the earliest
    start is [start_dt].  On a well-formed acyclic batch the known
    dependencies are all the declared dependencies that name a task of the
    batch. *)
Theorem earliest_start_max_dependency_end (so : set_order) (parse : string → option Q)
    (tasks : list task) (start_dt : Z) (deadline : option Z) (whpd : Z) (p : plan)
    (pre post : list string) (tid : string) (t : task) :
  schedule_plan so parse tasks start_dt deadline whpd = Ok p →
  p_order p = pre ++ tid :: post →
  task_map tasks !! tid = Some t →
  let known := filter (λ d, d ∈ pre) (depends_on t) in
  est (p_times p) !! tid = Some (pymax start_dt (finish (p_times p) <$> known)) ∧
  known = filter (λ d, d ∈ pre) (filter (λ d, d ∈ ids tasks) (depends_on t)) ∧
  (known = [] → est (p_times p) !! tid = Some start_dt) ∧
  (depends_on t = [] → est (p_times p) !! tid = Some start_dt) ∧
  (well_formed tasks → acyclic tasks →
   known = filter (λ d, d ∈ ids tasks) (depends_on t)).
Proof.
  intros Hp Hsplit Ht known.
  destruct (schedule_plan_steps _ _ _ _ _ _ _ Hp) as (Ho & He & _ & _).
  pose proof (topo_sort_NoDup _ _ _ Ho) as Hnd.
  destruct (earliest_starts_inv _ _ _ _ _ Hnd He) as [_ _ Hstart].
  specialize (Hstart pre tid post t Hsplit Ht). fold known in Hstart.
  assert (∀ d, d ∈ pre → d ∈ ids tasks) as Hpre.
  { intros d Hd. apply (topo_sort_elem _ _ _ d Ho). rewrite Hsplit.
    apply elem_of_app. by left. }
  split_and!.
  - done.
  - unfold known. rewrite list_filter_filter. apply filter_ext_elem.
    intros d _. split; [|tauto]. intros Hd. split; [done|]. by apply Hpre.
  - intros Hk. by rewrite Hstart, Hk.
  - intros Hd. rewrite Hstart. unfold known. by rewrite Hd.
  - intros Hwf Hac. unfold known. apply filter_ext_elem. intros d Hd.
    split; [apply Hpre|]. intros Hid.
    destruct (task_map_lookup _ _ _ Ht) as [Hin <-].
    destruct (topo_sort_order_shape so tasks) as (reached & Hk & Hshape & _).
    destruct (kahn_phase_sorted so tasks reached
                (well_formed_distinct_references tasks Hwf) Hac Hk)
      as [Hall Hsorted].
    rewrite Hshape in Ho. injection Ho as Ho.
    apply (before_split pre (t_id t) post); [by rewrite <- Hsplit|].
    rewrite <- Hsplit, <- Ho. apply before_app, Hsorted.
    + by apply Hall, list_elem_of_fmap_2.
    + apply elem_of_preds_in. by exists t.
Qed.

(** C10.  When the first loop of [schedule_tasks] reaches a task, the test
    [d in est] of the generator holds exactly for the ids that the order
    places before the task.  So a dependency placed earlier pushes the
    task's start to its end or later, and a dependency placed later (as
    happens among the members of a cycle appended in batch order) or the task
    itself is not counted. *)
Theorem dependency_counts_iff_earlier (so : set_order) (parse : string → option Q)
    (tasks : list task) (start_dt : Z) (deadline : option Z) (whpd : Z) (p : plan)
    (pre post : list string) (tid : string) (t : task) :
  schedule_plan so parse tasks start_dt deadline whpd = Ok p →
  p_order p = pre ++ tid :: post →
  task_map tasks !! tid = Some t →
  ∃ st,
    earliest_starts parse (task_map tasks) start_dt pre = Ok st ∧
    (∀ d, is_Some (est st !! d) ↔ d ∈ pre) ∧
    est (p_times p) !! tid =
      Some (pymax start_dt
              (finish (p_times p)
               <$> filter (λ d, is_Some (est st !! d)) (depends_on t))) ∧
    (∀ d, d ∈ depends_on t → d ∈ pre →
          ∃ s, est (p_times p) !! tid = Some s ∧ finish (p_times p) d ≤ s) ∧
    (∀ d, d ∈ post ∨ d = tid → est st !! d = None).
Proof.
  intros Hp Hsplit Ht.
  destruct (schedule_plan_steps _ _ _ _ _ _ _ Hp) as (Ho & He & _ & _).
  pose proof (topo_sort_NoDup _ _ _ Ho) as Hnd.
  destruct (earliest_starts_inv _ _ _ _ _ Hnd He) as [_ _ Hstart].
  specialize (Hstart pre tid post t Hsplit Ht).
  rewrite Hsplit in He, Hnd. unfold earliest_starts in He.
  apply for_each_app_Ok in He as (st & Hpre & _).
  pose proof Hnd as Hnd'. apply NoDup_app in Hnd' as (Hnd_pre & Hdisj & _).
  destruct (earliest_starts_inv _ _ _ _ _ Hnd_pre Hpre) as [Hest _ _].
  exists st. split_and!; [done|done|..].
  - rewrite Hstart. do 3 f_equal. apply filter_ext_elem. intros d _. by rewrite Hest.
  - intros d Hd Hin. eexists. split; [done|]. apply pymax_upper.
    apply list_elem_of_fmap_2. by apply list_elem_of_filter.
  - intros d Hd. destruct (est st !! d) eqn:E; [|done]. exfalso.
    assert (d ∈ pre) as Hin by (apply Hest; eauto).
    apply (Hdisj d Hin). destruct Hd as [Hd| ->]; [by right|by left].
Qed.

(** ** Compression and materialization *)

Lemma materialize_row parse tmap tm ratio tid r :
  materialize parse tmap tm ratio tid = Ok r →
  r_id r = tid ∧ ∃ t x, row_of parse tmap tm ratio r t x.
Proof.
  unfold materialize, getitem. intros H.
  destruct (tmap !! tid) as [t|] eqn:Et; cbn in H; try done.
  destruct (float_ parse (estimated_hours t)) as [x| |] eqn:Ex; cbn in H; try done.
  destruct (est tm !! tid) as [s|] eqn:Es; cbn in H; try done.
  injection H as <-. cbn. split; [done|]. exists t, x. by repeat split.
Qed.

Lemma rows_spec parse tmap tm ratio order rows :
  comprehension (materialize parse tmap tm ratio) order = Ok rows →
  r_id <$> rows = order ∧
  Forall (λ r, ∃ t x, row_of parse tmap tm ratio r t x) rows.
Proof.
  intros H%comprehension_Forall2.
  induction H as [|tid r order rows Hr _ [IH1 IH2]]; [by split|].
  apply materialize_row in Hr as [Hid Hrow]. cbn. split; [by f_equal|by constructor].
Qed.

Lemma divide_Ok a b r : divide a b = Ok r → r = (a / b)%Q ∧ ¬ (b == 0)%Q.
Proof.
  unfold divide. destruct (Qeq_bool b 0) eqn:E; [done|].
  intros [= <-]. split; [done|]. intros Hb. apply Qeq_bool_iff in Hb. congruence.
Qed.

Lemma compression_ratio_floor parse tmap order tm start_dt deadline whpd ratio :
  compression_ratio parse tmap order tm start_dt deadline whpd = Ok ratio →
  (1 # 4 <= ratio)%Q.
Proof.
  unfold compression_ratio. destruct deadline as [dl|]; [|by intros [= <-]].
  destruct (naive_end tm start_dt order) as [f| |]; cbn; try done.
  case_decide; [|by intros [= <-]].
  destruct (total_h parse tmap order) as [total| |]; cbn; try done.
  destruct (divide _ total) as [r| |]; cbn; try done.
  intros [= <-]. apply Q.le_max_r.
Qed.

Lemma naive_end_pymax tm start_dt order f :
  naive_end tm start_dt order = Ok f → f = pymax start_dt (finish tm <$> order).
Proof.
  unfold naive_end. intros H.
  destruct (comprehension _ order) as [ends| |] eqn:E; cbn in H; try done.
  injection H as <-. f_equal. apply comprehension_Forall2 in E.
  induction E as [|t e order ends He _ IH]; [done|]. cbn. f_equal; [|done].
  unfold getitem, finish in *.
  destruct (est tm !! t); cbn in He; try done.
  destruct (dur tm !! t); cbn in He; try done. by injection He as <-.
Qed.

Lemma qsum_foldl (xs : list Q) (a : Q) : (foldl Qplus a xs == a + qsum xs)%Q.
Proof.
  unfold qsum. revert a. induction xs as [|x xs IH]; intros a; cbn.
  - lra.
  - rewrite (IH (a + x)%Q), (IH (0 + x)%Q). lra.
Qed.

Lemma qsum_cons (x : Q) (xs : list Q) : (qsum (x :: xs) == x + qsum xs)%Q.
Proof. unfold qsum at 1. cbn. rewrite qsum_foldl. lra. Qed.

Lemma qsum_lower (xs : list Q) :
  Forall (λ x, (1 <= x)%Q) xs → (inject_Z (Z.of_nat (length xs)) <= qsum xs)%Q.
Proof.
  induction 1 as [|x xs Hx _ IH]; [by cbn|].
  rewrite qsum_cons. cbn [length]. rewrite Nat2Z.inj_succ, <- Z.add_1_l, inject_Z_plus.
  change (inject_Z 1) with 1%Q. lra.
Qed.

Lemma total_h_lower parse tmap order total :
  total_h parse tmap order = Ok total →
  (inject_Z (Z.of_nat (length order)) <= total)%Q.
Proof.
  unfold total_h. intros H.
  destruct (comprehension _ order) as [hs| |] eqn:E; cbn in H; try done.
  injection H as <-. apply comprehension_Forall2 in E.
  rewrite (Forall2_length _ _ _ E). apply qsum_lower.
  induction E as [|t h order hs Hh _ IH]; constructor; [|done].
  unfold floored_hours in Hh. destruct (getitem tmap t); cbn in Hh; try done.
  destruct (float_ parse _); cbn in Hh; try done. injection Hh as <-. apply Q.le_max_r.
Qed.

Lemma row_duration_floor parse tmap tm ratio r t x :
  (1 # 4 <= ratio)%Q → row_of parse tmap tm ratio r t x →
  (1 # 4 <= r_h r)%Q ∧ (x * (1 # 4) <= r_h r)%Q.
Proof.
  intros Hr (_ & _ & _ & -> & _).
  pose proof (Q.le_max_l x 1) as H1. pose proof (Q.le_max_r x 1) as H2.
  split; nra.
Qed.

Lemma qsum_foldr (xs : list Q) : (qsum xs == foldr Qplus 0 xs)%Q.
Proof.
  induction xs as [|x xs IH]; [done|]. rewrite qsum_cons, IH. reflexivity.
Qed.

(** ** What [float] reads, task by task *)

Lemma hours_read_functional parse tmap order : ∀ xs xs',
  Forall2 (hours_read parse tmap) order xs →
  Forall2 (hours_read parse tmap) order xs' → xs = xs'.
Proof.
  intros xs xs' H. revert xs'.
  induction H as [|tid x order xs (t & Et & Ex) _ IH]; intros xs' H';
    inversion H' as [|? x' ? xs'' (t' & Et' & Ex') Hrest]; subst; [done|].
  f_equal; [congruence|by apply IH].
Qed.

Lemma hours_read_number parse tmap tid x t :
  hours_read parse tmap tid x → tmap !! tid = Some t →
  match t_estimated_hours t with
  | None => x = 2%Q
  | Some (JNum q) => x = q
  | Some _ => True
  end.
Proof.
  intros (t' & Et' & Ex) Et. assert (t' = t) as -> by congruence.
  unfold estimated_hours in Ex.
  destruct (t_estimated_hours t) as [[| |q| |]|]; cbn in Ex; try done; congruence.
Qed.

Lemma hours_read_numbers parse tmap order xs :
  Forall2 (hours_read parse tmap) order xs →
  Forall2 (λ tid x, ∀ t, tmap !! tid = Some t →
             match t_estimated_hours t with
             | None => x = 2%Q
             | Some (JNum q) => x = q
             | Some _ => True
             end) order xs.
Proof.
  intros H. eapply Forall2_impl; [exact H|]. cbn. intros tid x Hx t.
  by apply (hours_read_number parse).
Qed.

Lemma floored_hours_read parse tmap order hs :
  comprehension (floored_hours parse tmap) order = Ok hs →
  ∃ xs, Forall2 (hours_read parse tmap) order xs ∧ hs = (λ x, Qmax x 1) <$> xs.
Proof.
  intros H%comprehension_Forall2.
  induction H as [|tid h order hs Hh _ (xs & Hxs & ->)]; [by exists []|].
  unfold floored_hours, getitem in Hh.
  destruct (tmap !! tid) as [t|] eqn:Et; cbn in Hh; try done.
  destruct (float_ parse (estimated_hours t)) as [x| |] eqn:Ex; cbn in Hh; try done.
  injection Hh as <-. exists (x :: xs). split; [|done].
  constructor; [|done]. by exists t.
Qed.

Lemma rows_hours_read parse tmap tm ratio order rows :
  comprehension (materialize parse tmap tm ratio) order = Ok rows →
  ∃ xs, Forall2 (hours_read parse tmap) order xs ∧
        Forall2 (λ r x, r_h r = (Qmax x 1 * ratio)%Q) rows xs.
Proof.
  intros H%comprehension_Forall2.
  induction H as [|tid r order rows Hr _ (xs & Hxs & Hrows)]; [by exists []|].
  apply materialize_row in Hr as (<- & t & x & Et & Ex & _ & Eh & _).
  exists (x :: xs). split; constructor; try done. by exists t.
Qed.

(** The ratio block, case by case, with the demand and the available hours
    in the words of the specification. *)
Lemma compression_ratio_cases parse tmap order tm start_dt deadline whpd ratio :
  compression_ratio parse tmap order tm start_dt deadline whpd = Ok ratio →
  match deadline with
  | None => ratio = 1%Q
  | Some dl =>
      if decide (dl < pymax start_dt (finish tm <$> order)) then
        ∃ xs, Forall2 (hours_read parse tmap) order xs ∧
              (0 < spec_demand_hours xs)%Q ∧
              (ratio == Qmax (inject_Z (spec_available_hours start_dt dl whpd)
                              / spec_demand_hours xs) (1 # 4))%Q
      else ratio = 1%Q
  end.
Proof.
  unfold compression_ratio. destruct deadline as [dl|]; [|by intros [= <-]].
  destruct (naive_end tm start_dt order) as [f| |] eqn:Ef; cbn; try done.
  apply naive_end_pymax in Ef as ->.
  case_decide; [|by intros [= <-]].
  destruct (total_h parse tmap order) as [total| |] eqn:Et; cbn; try done.
  destruct (divide _ total) as [r| |] eqn:Ed; cbn; try done.
  apply divide_Ok in Ed as [-> Hne]. intros [= <-].
  pose proof (total_h_lower _ _ _ _ Et) as Hlow.
  unfold total_h in Et.
  destruct (comprehension _ order) as [hs| |] eqn:Ehs; cbn in Et; try done.
  injection Et as <-.
  destruct (floored_hours_read _ _ _ _ Ehs) as (xs & Hxs & ->).
  assert (qsum ((λ x, Qmax x 1) <$> xs) == spec_demand_hours xs)%Q as Hsum
    by apply qsum_foldr.
  exists xs. split_and!; [done| |].
  - rewrite <- Hsum.
    assert (0 <= inject_Z (Z.of_nat (length order)))%Q.
    { change 0%Q with (inject_Z 0). rewrite <- Zle_Qle. lia. }
    destruct (Qlt_le_dec 0 (qsum ((λ x, Qmax x 1) <$> xs))) as [|Hneg]; [done|].
    exfalso. apply Hne. lra.
  - apply Q.max_compat; [|reflexivity]. by rewrite Hsum.
Qed.

(** C4.  The rendered duration of every task is [max(x, 1) * ratio], where
    [x] is what [float] reads from its [estimated_hours]: the number itself,
    and 2 for an absent estimate.  With no deadline the ratio is 1.  With a
    deadline, the naive completion instant is the greatest end (earliest
    start plus duration) over the tasks of the order; when the deadline is
    not before it the ratio is 1, and when it is, the ratio is
    [max(available_hours / demand_hours, 0.25)] with the demand the sum of
    [max(x, 1)] over the tasks and the available hours
    [max(days, 1) * work_hours_per_day] for the whole days from the start to
    the deadline; then no rendered duration is below a quarter of [x].  The
    tasks of the order are all the tasks of a batch with unique ids. *)
Theorem compression_ratio_formula (so : set_order) (parse : string → option Q)
    (tasks : list task) (start_dt : Z) (deadline : option Z) (whpd : Z) (p : plan) :
  schedule_plan so parse tasks start_dt deadline whpd = Ok p →
  ∃ xs,
    Forall2 (hours_read parse (task_map tasks)) (p_order p) xs ∧
    Forall2 (λ tid x, ∀ t, task_map tasks !! tid = Some t →
               match t_estimated_hours t with
               | None => x = 2%Q
               | Some (JNum q) => x = q
               | Some _ => True
               end) (p_order p) xs ∧
    (NoDup (ids tasks) → p_order p ≡ₚ ids tasks) ∧
    Forall2 (λ r x, r_h r = (Qmax x 1 * p_ratio p)%Q) (p_rows p) xs ∧
    let finish_all := pymax start_dt (finish (p_times p) <$> p_order p) in
    match deadline with
    | None => p_ratio p = 1%Q
    | Some dl =>
        if decide (dl < finish_all) then
          (p_ratio p ==
             Qmax (inject_Z (Z.max ((dl - start_dt) / 86400000000) 1 * whpd)
                   / foldr Qplus 0 ((λ x, Qmax x 1) <$> xs)) (1 # 4))%Q ∧
          Forall2 (λ r x, (x * (1 # 4) <= r_h r)%Q) (p_rows p) xs
        else p_ratio p = 1%Q
    end.
Proof.
  intros Hp. destruct (schedule_plan_steps _ _ _ _ _ _ _ Hp) as (Ho & _ & Hr & Hrows).
  pose proof (compression_ratio_floor _ _ _ _ _ _ _ _ Hr) as Hfloor.
  destruct (rows_hours_read _ _ _ _ _ _ Hrows) as (xs & Hxs & Hh).
  exists xs. split_and!; [done|by apply (hours_read_numbers parse)| |done|].
  { intros Hids. by apply (topo_sort_permutation so). }
  apply compression_ratio_cases in Hr. cbv zeta.
  destruct deadline as [dl|]; [|done]. case_decide; [|done].
  destruct Hr as (xs' & Hxs' & _ & Hr).
  rewrite (hours_read_functional _ _ _ _ _ Hxs' Hxs) in Hr. split; [done|].
  eapply Forall2_impl; [exact Hh|]. cbn. intros r x ->.
  pose proof (Q.le_max_l x 1) as H1. pose proof (Q.le_max_r x 1) as H2. nra.
Qed.

(** C7, as the code has it.  The ratio is never below 0.25.  It is 1 when
    no deadline is given and when the deadline is not before the naive
    completion instant.  When the deadline is before it, the ratio is at
    most 1 if the available hours do not exceed the demand, and above 1 if
    they do: nothing caps it.  A rendered duration is at most
    [max(x, 1)] when the ratio is at most 1, and above it when the ratio is
    above 1. *)
Theorem compression_ratio_at_most_one (so : set_order) (parse : string → option Q)
    (tasks : list task) (start_dt : Z) (deadline : option Z) (whpd : Z) (p : plan) :
  schedule_plan so parse tasks start_dt deadline whpd = Ok p →
  ∃ xs,
    Forall2 (hours_read parse (task_map tasks)) (p_order p) xs ∧
    Forall2 (λ r x, r_h r = (Qmax x 1 * p_ratio p)%Q) (p_rows p) xs ∧
    (1 # 4 <= p_ratio p)%Q ∧
    (deadline = None → p_ratio p = 1%Q) ∧
    (∀ dl, deadline = Some dl →
       pymax start_dt (finish (p_times p) <$> p_order p) ≤ dl → p_ratio p = 1%Q) ∧
    (∀ dl, deadline = Some dl →
       dl < pymax start_dt (finish (p_times p) <$> p_order p) →
       let available := inject_Z (Z.max ((dl - start_dt) / 86400000000) 1 * whpd) in
       let demand := foldr Qplus 0%Q ((λ x, Qmax x 1) <$> xs) in
       ((available <= demand)%Q → (p_ratio p <= 1)%Q) ∧
       ((demand < available)%Q → (1 < p_ratio p)%Q)) ∧
    ((p_ratio p <= 1)%Q →
       Forall2 (λ r x, (r_h r <= Qmax x 1)%Q) (p_rows p) xs) ∧
    ((1 < p_ratio p)%Q →
       Forall2 (λ r x, (Qmax x 1 < r_h r)%Q) (p_rows p) xs).
Proof.
  intros Hp. destruct (schedule_plan_steps _ _ _ _ _ _ _ Hp) as (_ & _ & Hr & Hrows).
  pose proof (compression_ratio_floor _ _ _ _ _ _ _ _ Hr) as Hfloor.
  destruct (rows_hours_read _ _ _ _ _ _ Hrows) as (xs & Hxs & Hh).
  apply compression_ratio_cases in Hr.
  exists xs. split_and!; [done..| | | | |].
  - by intros ->.
  - intros dl -> Hfit. by rewrite decide_False in Hr by lia.
  - intros dl -> Hlate. rewrite decide_True in Hr by done.
    destruct Hr as (xs' & Hxs' & Hpos & Hr).
    rewrite (hours_read_functional _ _ _ _ _ Hxs' Hxs) in Hr, Hpos.
    unfold spec_available_hours, spec_demand_hours in *. cbv zeta.
    set (available := inject_Z _) in *. set (demand := foldr Qplus 0%Q _) in *.
    split; intros Hcmp; rewrite Hr.
    + apply Q.max_lub; [|lra]. apply Qle_shift_div_r; [done|lra].
    + eapply Qlt_le_trans; [|apply Q.le_max_l].
      apply Qlt_shift_div_l; [done|lra].
  - intros Hle. eapply Forall2_impl; [exact Hh|]. cbn. intros r x ->.
    pose proof (Q.le_max_r x 1) as H2. nra.
  - intros Hgt. eapply Forall2_impl; [exact Hh|]. cbn. intros r x ->.
    pose proof (Q.le_max_r x 1) as H2. nra.
Qed.

Lemma round_half_even_nonneg (x : Q) : (0 <= x)%Q → 0 ≤ round_half_even x.
Proof.
  intros Hx. unfold round_half_even.
  assert (0 ≤ Qfloor x) as Hf.
  { change 0 with (Qfloor 0). by apply Qfloor_resp_le. }
  destruct (Qcompare _ _); [destruct (Z.even _)|..]; lia.
Qed.

Lemma timedelta_hours_nonneg (h : Q) : (0 <= h)%Q → 0 ≤ timedelta_hours h.
Proof.
  intros Hh. apply round_half_even_nonneg.
  assert (0 <= inject_Z us_per_hour)%Q by (by change 0%Q with (inject_Z 0); rewrite <- Zle_Qle).
  nra.
Qed.

Lemma date_mono (a b : Z) : a ≤ b → date a ≤ date b.
Proof. intros H. unfold date. by apply Z.div_le_mono. Qed.

(** C9.  On a batch whose [estimated_hours] are all absent or numbers (zero
    and negative ones included), the ratio of a run that returns is at least
    0.25, and every row it produces is for a task whose estimate reads as a
    number [x] (2 when absent): its rendered duration is [max(x, 1) * ratio],
    which is at least 0.25 hours, and it ends no earlier than it starts.  So
    every entry's end date is no earlier than its start date. *)
Theorem schedule_rows_well_ordered (so : set_order) (parse : string → option Q)
    (tasks : list task) (start_dt : Z) (deadline : option Z) (whpd : Z) (p : plan) :
  Forall numeric_hours tasks →
  schedule_plan so parse tasks start_dt deadline whpd = Ok p →
  schedule_tasks so parse tasks start_dt deadline whpd
    = Ok (entry_of_row <$> p_rows p) ∧
  e_id <$> (entry_of_row <$> p_rows p) = p_order p ∧
  (1 # 4 <= p_ratio p)%Q ∧
  Forall (λ r, ∃ t x,
            task_map tasks !! r_id r = Some t ∧
            estimated_hours t = JNum x ∧
            r_h r = (Qmax x 1 * p_ratio p)%Q ∧
            (1 # 4 <= r_h r)%Q ∧
            r_e r = r_s r + timedelta_hours (r_h r) ∧
            r_s r ≤ r_e r) (p_rows p) ∧
  Forall (λ e, start_date e ≤ end_date e) (entry_of_row <$> p_rows p).
Proof.
  intros Hnum Hp. rewrite Forall_forall in Hnum.
  destruct (schedule_plan_steps _ _ _ _ _ _ _ Hp) as (Ho & _ & Hr & Hrows).
  pose proof (compression_ratio_floor _ _ _ _ _ _ _ _ Hr) as Hfloor.
  apply rows_spec in Hrows as [Hids Hrows].
  assert (Forall (λ r, ∃ t x,
            task_map tasks !! r_id r = Some t ∧
            estimated_hours t = JNum x ∧
            r_h r = (Qmax x 1 * p_ratio p)%Q ∧
            (1 # 4 <= r_h r)%Q ∧
            r_e r = r_s r + timedelta_hours (r_h r) ∧
            r_s r ≤ r_e r) (p_rows p)) as Hall.
  { eapply Forall_impl; [exact Hrows|]. cbn. intros r (t & x & Hrow).
    destruct (row_duration_floor _ _ _ _ _ _ _ Hfloor Hrow) as [Hq _].
    destruct Hrow as (Et & Ex & _ & Eh & _ & Ee).
    assert (estimated_hours t = JNum x) as Hx.
    { pose proof (task_map_lookup _ _ _ Et) as [Ht _]. specialize (Hnum t Ht).
      unfold numeric_hours, estimated_hours in *.
      destruct (t_estimated_hours t) as [[| |q| |]|]; cbn in *; try done; congruence. }
    exists t, x. split_and!; [done..|].
    assert (0 ≤ timedelta_hours (r_h r)) by (apply timedelta_hours_nonneg; lra). lia. }
  split_and!; [| |done|done|].
  - unfold schedule_tasks. by rewrite Hp.
  - rewrite <- Hids, <- list_fmap_compose. by apply list_fmap_ext.
  - apply Forall_fmap. eapply Forall_impl; [exact Hall|]. cbn.
    intros r (_ & _ & _ & _ & _ & _ & _ & Hse). by apply date_mono.
Qed.




(** ** What raises: C5 *)

Lemma topo_sort_single so t : topo_sort so [t] = Ok [t_id t].
Proof.
  destruct (topo_sort_order_shape so [t]) as (reached & _ & Ho & _).
  rewrite Ho. f_equal.
  apply Permutation_singleton_r, (topo_sort_permutation so [t]); [|done].
  apply NoDup_singleton.
Qed.

(** A string that [float] rejects raises [ValueError] in the first loop. *)
Lemma schedule_tasks_rejected_string so parse tid s start_dt deadline whpd :
  s ≠ ""%string → parse s = None →
  schedule_tasks so parse [Task tid None (Some (JStr s)) None] start_dt deadline whpd
  = Raise ValueError.
Proof.
  intros Hs Hparse. unfold schedule_tasks, schedule_plan.
  rewrite topo_sort_single. cbn. unfold earliest_starts, plan_task, getitem. cbn.
  rewrite lookup_insert_eq. cbn. unfold py_or, estimated_hours. cbn.
  assert (String.eqb s "" = false) as -> by (by apply String.eqb_neq).
  cbn. by rewrite Hparse.
Qed.

(** C5 fails on the code.  A task whose [estimated_hours] is a JSON null gets
    the default in the first loop ([... or 2]) and raises [TypeError] in the
    last one, which calls [float] on the null; and an empty batch with a
    deadline before the start raises [ZeroDivisionError], the sum of the
    demand being zero.  Without a deadline the empty batch gives the empty
    schedule. *)
Theorem schedule_tasks_raises (so : set_order) (parse : string → option Q) :
  schedule_tasks so parse null_estimate 0 None 6 = Raise TypeError ∧
  earliest_starts parse (task_map null_estimate) 0 ["T1"%string]
    = Ok (Times {["T1"%string := 0]} {["T1"%string := 2 * us_per_hour]}) ∧
  schedule_tasks so parse [] 0 (Some (-1)) 6 = Raise ZeroDivisionError ∧
  schedule_tasks so parse [] 0 None 6 = Ok [].
Proof.
  split_and!.
  - unfold schedule_tasks, schedule_plan, null_estimate.
    rewrite topo_sort_single. by vm_compute.
  - by vm_compute.
  - by vm_compute.
  - by vm_compute.
Qed.

(** ** What is queued stays in queue order *)

Lemma relax_prefix vs : ∀ deg q deg' q',
  relax deg q vs = Ok (deg', q') → q `prefix_of` q'.
Proof.
  induction vs as [|v vs IH]; intros deg q deg' q' H; cbn in H.
  { by injection H as _ <-. }
  destruct (deg !! v) as [d|]; [|done]. apply IH in H.
  case_decide; [|done]. etrans; [|done]. by apply prefix_app_r.
Qed.

(** Whatever is queued leaves the queue in queue order, before anything
    queued later. *)
Lemma kahn_fifo so g fuel : ∀ deg q order out,
  kahn so g fuel deg q order = Ok out → (order ++ q) `prefix_of` out.
Proof.
  induction fuel as [|fuel IH]; intros deg q order out H;
    destruct q as [|n q]; cbn in H; try done.
  - injection H as <-. by rewrite app_nil_r.
  - injection H as <-. by rewrite app_nil_r.
  - destruct (relax deg q _) as [[deg' q']| |] eqn:E; cbn in H; try done.
    apply relax_prefix in E as [k ->]. apply IH in H.
    etrans; [|done]. rewrite <- !app_assoc. cbn. by apply prefix_app, prefix_cons, prefix_app_r.
Qed.

Lemma ready_seeds tasks : ready (indeg (build_nodes tasks)) = seeds tasks.
Proof.
  destruct (build_nodes_ok tasks) as [Hwf _].
  destruct (build_nodes_spec tasks) as (Hk & Hs & _).
  rewrite ready_filter by done. unfold seeds. rewrite Hk.
  apply filter_ext_elem. intros v [Hv _]%unreached_elem.
  rewrite Hs, decide_True by done. split.
  - intros [= E]. destruct (preds tasks v); [done|cbn in E; lia].
  - by intros ->.
Qed.

(** * The properties on the sample batches *)

Ltac by_computation := apply (bool_decide_unpack _); vm_compute; exact I.

(** ** Ordering *)

(** The order of [fan] follows the iteration order of the successor set of
    A: the result of [topo_sort] is not a function of the batch alone. *)
Lemma topo_sort_order_varies :
  topo_sort insertion_order fan = Ok ["A"; "B"; "C"]%string ∧
  topo_sort newest_first fan = Ok ["A"; "C"; "B"]%string ∧
  ¬ (∀ so so' tasks, topo_sort so tasks = topo_sort so' tasks).
Proof.
  split_and!; [by vm_compute..|].
  intros H. specialize (H insertion_order newest_first fan). by vm_compute in H.
Qed.

Lemma chain_acyclic : acyclic chain.
Proof. apply (acyclic_by_rank chain chain_rank). by_computation. Qed.

Lemma chain_repeated_acyclic : acyclic chain_repeated.
Proof. apply (acyclic_by_rank chain_repeated chain_rank). by_computation. Qed.

(** A repeated reference counts twice in the in-degree and once in the
    successor set: in the acyclic batch [chain_repeated] B is never taken
    from the queue, and C, which depends on B, is appended before it. *)
Lemma repeated_dependency_misordered :
  acyclic chain_repeated ∧
  topo_sort insertion_order chain_repeated = Ok ["A"; "C"; "B"]%string ∧
  ¬ before ["A"; "C"; "B"]%string "B" "C".
Proof.
  split_and!; [apply chain_repeated_acyclic|by vm_compute|].
  intros (i & j & Hi & Hj & Hlt).
  destruct i as [|[|[|i]]]; cbn in Hi; try done.
  destruct j as [|[|[|j]]]; cbn in Hj; try done. lia.
Qed.

Lemma topo_sort_dependencies_first_witness :
  ∃ order, topo_sort newest_first chain = Ok order ∧
           before order "A" "B" ∧ before order "B" "C".
Proof.
  destruct (topo_sort_dependencies_first newest_first chain)
    as (order & Ho & _ & Hdeps).
  - split; by_computation.
  - apply chain_acyclic.
  - exists order. split_and!; [done|..].
    + apply (Hdeps (timed "B" 2 ["A"; "Z"]%string) "A"%string);
        [apply list_elem_of_further, list_elem_of_here|by_computation..].
    + apply (Hdeps (timed "C" 2 ["B"%string]) "B"%string);
        [apply list_elem_of_here|by_computation..].
Defined.

(** ** Scheduling *)

Lemma earliest_start_max_dependency_end_witness :
  est (p_times chain_plan) !! "B"%string = Some (2 * us_per_hour) ∧
  est (p_times chain_plan) !! "A"%string = Some 0.
Proof.
  split.
  - destruct (earliest_start_max_dependency_end insertion_order no_strings chain
                0 None 6 chain_plan ["A"%string] ["C"%string] "B"
                (timed "B" 2 ["A"; "Z"]%string)) as (H & _); [by vm_compute..|].
    rewrite H. by vm_compute.
  - destruct (earliest_start_max_dependency_end insertion_order no_strings chain
                0 None 6 chain_plan [] ["B"; "C"]%string "A"
                (timed "A" 2 [])) as (_ & _ & _ & H & _); [by vm_compute..|].
    by apply H.
Defined.

Lemma dependency_counts_iff_earlier_witness :
  est (p_times two_cycle_plan) !! "A"%string = Some 0 ∧
  finish (p_times two_cycle_plan) "A" = 2 * us_per_hour ∧
  ∃ s, est (p_times two_cycle_plan) !! "B"%string = Some s ∧ 2 * us_per_hour ≤ s.
Proof.
  split_and!.
  - destruct (dependency_counts_iff_earlier insertion_order no_strings two_cycle
                0 None 6 two_cycle_plan [] ["B"%string] "A"
                (timed "A" 2 ["B"%string])) as (st & _ & _ & H & _ & Hlater);
      [by vm_compute..|].
    rewrite H. change (depends_on (timed "A" 2 ["B"%string])) with ["B"%string].
    rewrite filter_cons_False, filter_nil; [done|].
    rewrite (Hlater "B"%string); [by intros [? ?]|left; by left].
  - by vm_compute.
  - destruct (dependency_counts_iff_earlier insertion_order no_strings two_cycle
                0 None 6 two_cycle_plan ["A"%string] [] "B"
                (timed "B" 3 ["A"%string])) as (st & _ & _ & _ & H & _);
      [by vm_compute..|].
    destruct (H "A"%string) as (s & Hs & Hle); [by left..|].
    exists s. split; [done|]. by vm_compute in Hle.
Defined.

(** With a deadline three hours after the start, the two chained two-hour
    tasks get the ratio 6 / 4: above 1, and each duration becomes three
    hours, above [max(estimated_hours, 1)]. *)
Lemma compression_ratio_exceeds_one :
  schedule_plan insertion_order no_strings pair 0 (Some (3 * us_per_hour)) 6
    = Ok pair_plan ∧
  p_ratio pair_plan = (6 # 4)%Q ∧
  ¬ (p_ratio pair_plan <= 1)%Q ∧
  Forall (λ r, r_h r = (12 # 4)%Q ∧ ¬ (r_h r <= Qmax 2 1)%Q) (p_rows pair_plan).
Proof.
  split_and!; [by vm_compute|by vm_compute|by vm_compute|].
  repeat constructor; by vm_compute.
Qed.

(** On [overrun] with a deadline two days after the start and 24 working
    hours a day: 48 hours available for a demand of 30 + 1 + 30. *)
Lemma compression_ratio_formula_witness :
  (p_ratio overrun_plan == 48 # 61)%Q.
Proof.
  destruct (compression_ratio_formula insertion_order no_strings overrun 0
              (Some (2 * 86400000000)) 24 overrun_plan)
    as (xs & Hxs & _ & _ & _ & H).
  { by vm_compute. }
  assert (xs = [30; 1 # 2; 30]%Q) as ->.
  { apply (hours_read_functional no_strings (task_map overrun)
             (p_order overrun_plan)); [done|].
    repeat constructor.
    - exists (timed "A" 30 []). split; by vm_compute.
    - exists (timed "B" (1 # 2) ["A"%string]). split; by vm_compute.
    - exists (timed "C" 30 ["B"%string]). split; by vm_compute. }
  cbv zeta in H. rewrite decide_True in H by (by vm_compute).
  destruct H as [H _]. rewrite H. by vm_compute.
Defined.

Lemma compression_ratio_at_most_one_witness :
  (1 # 4 <= p_ratio long_task_plan)%Q ∧ (p_ratio long_task_plan <= 1)%Q.
Proof.
  destruct (compression_ratio_at_most_one insertion_order no_strings long_task 0
              (Some (24 * us_per_hour)) 6 long_task_plan)
    as (xs & Hxs & _ & Hfloor & _ & _ & Hlate & _).
  { by vm_compute. }
  assert (xs = [30]%Q) as ->.
  { apply (hours_read_functional no_strings (task_map long_task)
             (p_order long_task_plan)); [done|].
    repeat constructor. exists (timed "A" 30 []). split; by vm_compute. }
  split; [done|].
  destruct (Hlate (24 * us_per_hour) eq_refl) as [Hle _]; [by vm_compute|].
  apply Hle. by vm_compute.
Defined.


Lemma schedule_rows_well_ordered_witness :
  Forall (λ r, r_s r ≤ r_e r ∧ (1 # 4 <= r_h r)%Q) (p_rows chain_plan).
Proof.
  destruct (schedule_rows_well_ordered insertion_order no_strings chain 0 None 6
              chain_plan) as (_ & _ & _ & Hrows & _).
  - repeat constructor.
  - by vm_compute.
  - eapply Forall_impl; [exact Hrows|]. cbn.
    by intros r (t & x & _ & _ & _ & Hh & _ & Hse).
Defined.

(** * Further properties of the ordering engine *)

(** ** The queue loop on batches of any shape *)

Lemma taken_all tasks order v :
  NoDup order → length (taken tasks order v) = length (preds tasks v) →
  preds tasks v ≡ₚ taken tasks order v.
Proof.
  intros Hnd Hlen. symmetry. apply submseteq_length_Permutation; [|lia].
  apply NoDup_submseteq; [by apply NoDup_filter|].
  by intros x [Hx _]%list_elem_of_filter.
Qed.

Lemma taken_snoc tasks order n v :
  Z.of_nat (length (taken tasks (order ++ [n]) v)) =
  Z.of_nat (length (taken tasks order v))
  + (if decide (n ∈ preds tasks v) then 1 else 0).
Proof.
  unfold taken. rewrite filter_app, length_app, filter_cons, filter_nil.
  case_decide; cbn; lia.
Qed.

Lemma taken_bound tasks order v :
  NoDup order → (length (taken tasks order v) ≤ length (preds tasks v))%nat.
Proof.
  intros Hnd. apply submseteq_length, NoDup_submseteq; [by apply NoDup_filter|].
  by intros x [Hx _]%list_elem_of_filter.
Qed.

Section queue_loop_any.
Context (so : set_order) (tasks : list task) (g : gmap string (list string)).
Hypothesis successors : ∀ d, d ∈ ids tasks →
  ∃ s, g !! d = Some s ∧ NoDup s ∧ ∀ v, v ∈ s ↔ d ∈ preds tasks v.

Lemma queue_inv_deps deg q order v d :
  queue_inv tasks deg q order → v ∈ order ++ q → d ∈ preds tasks v → d ∈ order.
Proof.
  intros [Hdeg Hzero _ Hnd] Hv Hd.
  destruct (Hzero v Hv) as [Hid E]. rewrite (Hdeg v Hid) in E. injection E as E.
  apply NoDup_app in Hnd as (Hnd & _ & _).
  assert (d ∈ taken tasks order v) as Hin.
  { rewrite <- (taken_all tasks order v); [done..|lia]. }
  by apply list_elem_of_filter in Hin as [_ ?].
Qed.

Lemma queue_inv_step deg n q order :
  queue_inv tasks deg (n :: q) order →
  ∃ deg' q', relax deg q (set_iter so (default [] (g !! n))) = Ok (deg', q') ∧
             queue_inv tasks deg' q' (order ++ [n]).
Proof.
  intros Hinv. pose proof Hinv as [Hdeg Hzero Hsorted Hnd].
  destruct (Hzero n) as [Hn En]; [apply elem_of_app; right; by left|].
  destruct (successors n Hn) as (s & Eg & Hs & Hsucc). rewrite Eg. cbn [default].
  set (vs := set_iter so s).
  assert (NoDup vs) as Hvs by (unfold vs; by rewrite set_iter_perm).
  assert (∀ v, v ∈ vs ↔ n ∈ preds tasks v) as Hvs_in.
  { intros v. unfold vs. by rewrite set_iter_perm. }
  assert (n ∉ order) as Hno.
  { apply NoDup_app in Hnd as (_ & Hd & _). intros Hin. apply (Hd n Hin). by left. }
  assert (∀ v, v ∈ order ++ n :: q → v ∉ vs) as Hold.
  { intros v Hv Hin%Hvs_in. apply Hno. by apply (queue_inv_deps deg (n :: q) order v). }
  destruct (relax_spec vs deg q Hvs) as (deg' & Hr & Hdeg').
  { intros v Hv. apply Hvs_in, preds_in_ids in Hv as [Hv _].
    rewrite (Hdeg v Hv). eauto. }
  exists deg', (q ++ filter (λ v, deg !! v = Some 1) vs). split; [done|].
  assert (∀ v, v ∈ (order ++ [n]) ++ q ++ filter (λ v, deg !! v = Some 1) vs
               ↔ v ∈ order ++ n :: q ∨ (v ∈ vs ∧ deg !! v = Some 1)) as Hmem.
  { intros v. rewrite !elem_of_app, list_elem_of_singleton, elem_of_cons,
      list_elem_of_filter. tauto. }
  split.
  - intros v Hv. rewrite Hdeg', (Hdeg v Hv), taken_snoc.
    destruct (decide (v ∈ vs)) as [Hin|Hin]; cbn; f_equal.
    + rewrite decide_True by by apply Hvs_in. lia.
    + rewrite decide_False by by rewrite <- Hvs_in. lia.
  - intros v [Hv|[Hv E]]%Hmem.
    + destruct (Hzero v Hv) as [Hid E]. split; [done|].
      rewrite Hdeg', decide_False by by apply Hold. done.
    + assert (v ∈ ids tasks) as Hid by (apply Hvs_in, preds_in_ids in Hv; tauto).
      split; [done|]. rewrite Hdeg', decide_True, E by done. done.
  - intros v d [Hv| ->%list_elem_of_singleton]%elem_of_app Hd.
    + by apply before_app, Hsorted.
    + apply before_snoc, (queue_inv_deps deg (n :: q) order n); [done| |done].
      apply elem_of_app. right. by left.
  - replace ((order ++ [n]) ++ q ++ filter (λ v, deg !! v = Some 1) vs)
      with ((order ++ n :: q) ++ filter (λ v, deg !! v = Some 1) vs)
      by (by rewrite <- !app_assoc).
    apply NoDup_app. split_and!; [done| |by apply NoDup_filter].
    intros v Hv [E Hvv]%list_elem_of_filter.
    destruct (Hzero v Hv) as [_ E0]. congruence.
Qed.

Lemma kahn_any fuel : ∀ deg q order out,
  queue_inv tasks deg q order → kahn so g fuel deg q order = Ok out →
  ∃ deg', queue_inv tasks deg' [] out.
Proof.
  induction fuel as [|fuel IH]; intros deg q order out Hinv Hk;
    destruct q as [|n q]; cbn in Hk; try done.
  - injection Hk as <-. eauto.
  - injection Hk as <-. eauto.
  - destruct (queue_inv_step deg n q order Hinv) as (deg' & q' & Hr & Hinv').
    rewrite Hr in Hk. cbn in Hk. eauto.
Qed.
End queue_loop_any.

Lemma queue_inv_init tasks :
  let st := build_nodes tasks in
  queue_inv tasks (store (indeg st)) (ready (indeg st)) [].
Proof.
  destruct (build_nodes_ok tasks) as [Hwf _].
  destruct (build_nodes_spec tasks) as (Hk & Hs & _).
  cbn zeta. set (st := build_nodes tasks) in *.
  split.
  - intros v Hv. rewrite Hs, decide_True by done. f_equal. unfold taken. cbn. lia.
  - intros v. cbn. rewrite ready_filter, list_elem_of_filter, Hk, unreached_elem by done.
    tauto.
  - intros v d Hv. by apply elem_of_nil in Hv.
  - cbn. rewrite ready_filter by done. apply NoDup_filter, Hwf.
Qed.

(** Whatever the batch, the list produced by the queue loop has no
    duplicates, holds only ids without repeated references, and has every id
    after all of its in-batch dependencies. *)
Lemma kahn_phase_any so tasks reached :
  kahn_phase so tasks = Ok reached →
  NoDup reached ∧
  (∀ v, v ∈ reached → v ∈ ids tasks ∧ NoDup (preds tasks v)) ∧
  (∀ v d, v ∈ reached → d ∈ preds tasks v → d ∈ reached ∧ before reached d v).
Proof.
  intros Hk. unfold kahn_phase in Hk.
  destruct (build_nodes_spec tasks) as (_ & _ & _ & Hg).
  destruct (kahn_any so tasks (graph (build_nodes tasks)) Hg _ _ _ _ _
              (queue_inv_init tasks) Hk) as (deg' & Hinv).
  pose proof Hinv as [Hdeg Hzero Hsorted Hnd]. rewrite app_nil_r in *.
  split_and!; [done| |].
  - intros v Hv. destruct (Hzero v Hv) as [Hid E]. split; [done|].
    rewrite (Hdeg v Hid) in E. injection E as E.
    rewrite (taken_all tasks reached v); [by apply NoDup_filter|done|lia].
  - intros v d Hv Hd. split; [|by apply Hsorted].
    apply (queue_inv_deps tasks deg' [] reached v); [done| |done].
    by rewrite app_nil_r.
Qed.

Lemma before_trans l a b c :
  NoDup l → before l a b → before l b c → before l a c.
Proof.
  intros Hnd (i & j & Hi & Hj & Hij) (j' & k & Hj' & Hk & Hjk).
  assert (j = j') as <- by by eapply NoDup_lookup.
  exists i, k. split_and!; [done..|lia].
Qed.

Lemma before_irrefl l a : NoDup l → ¬ before l a a.
Proof.
  intros Hnd (i & j & Hi & Hj & Hij).
  assert (i = j) by by eapply NoDup_lookup. lia.
Qed.

Lemma tc_edge_ids tasks x y : tc (edge tasks) x y → y ∈ ids tasks.
Proof.
  induction 1 as [x y H|x y z _ _ IH]; [|done]. by apply preds_in_ids in H as [? _].
Qed.

Lemma reached_closed so tasks reached x y :
  kahn_phase so tasks = Ok reached → tc (edge tasks) x y → y ∈ reached →
  x ∈ reached ∧ before reached x y.
Proof.
  intros Hk. destruct (kahn_phase_any so tasks reached Hk) as (Hnd & _ & Hdeps).
  induction 1 as [x y H|x y z H _ IH]; intros Hy; [by apply Hdeps|].
  destruct (IH Hy) as [Hy' Hyz]. destruct (Hdeps y x Hy' H) as [Hx Hxy].
  split; [done|]. by apply (before_trans reached x y z).
Qed.

Lemma unreached_nil_iff seen l : unreached seen l = [] ↔ ∀ x, x ∈ l → x ∈ seen.
Proof.
  split.
  - intros Hnil x Hx. destruct (decide (x ∈ seen)) as [|Hn]; [done|].
    assert (x ∈ unreached seen l) as Hin by by apply unreached_elem.
    rewrite Hnil in Hin. by apply elem_of_nil in Hin.
  - intros Hall. destruct (unreached seen l) as [|x k] eqn:E; [done|].
    assert (x ∈ unreached seen l) as [Hx Hn]%unreached_elem by (rewrite E; by left).
    by apply Hall in Hx.
Qed.

(** X1.  Whatever the batch (cycles, repeated or dangling references), an
    id that the queue loop takes has all of its in-batch dependencies taken
    too, each at a position before its own in the returned order. *)
Theorem reached_tasks_follow_dependencies (so : set_order) (tasks : list task) :
  ∃ reached,
    kahn_phase so tasks = Ok reached ∧
    topo_sort so tasks = Ok (reached ++ unreached reached (ids tasks)) ∧
    ∀ t d, t ∈ tasks → t_id t ∈ reached → d ∈ depends_on t → d ∈ ids tasks →
           d ∈ reached ∧
           before (reached ++ unreached reached (ids tasks)) d (t_id t).
Proof.
  destruct (topo_sort_order_shape so tasks) as (reached & Hk & Ho & _).
  destruct (kahn_phase_any so tasks reached Hk) as (_ & _ & Hdeps).
  exists reached. split_and!; [done..|].
  intros t d Ht Hv Hd Hid.
  destruct (Hdeps (t_id t) d Hv) as [Hin Hb]; [apply elem_of_preds_in; by exists t|].
  split; [done|]. by apply before_app.
Qed.

(** X2.  The ids that the queue loop never takes, and that end up in the
    tail: every id on a dependency cycle (a self-reference included), every id
    that is given the same in-batch dependency twice, and every id that
    depends, directly or through others, on an id of the tail. *)
Theorem cycles_and_dependants_in_tail (so : set_order) (tasks : list task) :
  ∃ reached,
    kahn_phase so tasks = Ok reached ∧
    topo_sort so tasks = Ok (reached ++ unreached reached (ids tasks)) ∧
    (∀ v, tc (edge tasks) v v → v ∈ unreached reached (ids tasks)) ∧
    (∀ v, v ∈ ids tasks → ¬ NoDup (preds tasks v) →
          v ∈ unreached reached (ids tasks)) ∧
    (∀ c v, c ∈ unreached reached (ids tasks) → tc (edge tasks) c v →
            v ∈ unreached reached (ids tasks)).
Proof.
  destruct (topo_sort_order_shape so tasks) as (reached & Hk & Ho & _).
  destruct (kahn_phase_any so tasks reached Hk) as (Hnd & Hids & _).
  exists reached. split_and!; [done..| | |].
  - intros v Hv. apply unreached_elem. split; [by apply tc_edge_ids in Hv|].
    intros Hin. destruct (reached_closed so tasks reached v v Hk Hv Hin) as [_ Hb].
    by apply before_irrefl in Hb.
  - intros v Hv Hdup. apply unreached_elem. split; [done|].
    intros Hin. by apply Hids in Hin as [_ ?].
  - intros c v [Hc Hn]%unreached_elem Hcv. apply unreached_elem.
    split; [by apply tc_edge_ids in Hcv|].
    intros Hin. by destruct (reached_closed so tasks reached c v Hk Hcv Hin).
Qed.

(** X3.  Nothing is appended after the queue loop exactly when the
    dependency graph has no cycle and no id is given the same in-batch
    dependency twice: a non-empty tail detects a cycle or a repeated
    reference. *)
Theorem tail_empty_iff_acyclic (so : set_order) (tasks : list task) :
  ∃ reached,
    kahn_phase so tasks = Ok reached ∧
    topo_sort so tasks = Ok (reached ++ unreached reached (ids tasks)) ∧
    (unreached reached (ids tasks) = []
     ↔ acyclic tasks ∧ distinct_references tasks).
Proof.
  destruct (topo_sort_order_shape so tasks) as (reached & Hk & Ho & _).
  destruct (kahn_phase_any so tasks reached Hk) as (Hnd & Hids & _).
  exists reached. split_and!; [done..|]. rewrite unreached_nil_iff. split.
  - intros Hall. split.
    + intros x Hx.
      destruct (reached_closed so tasks reached x x Hk Hx) as [_ Hb].
      { by apply Hall, (tc_edge_ids tasks x). }
      by apply before_irrefl in Hb.
    + intros v. destruct (decide (v ∈ ids tasks)) as [Hv|Hv].
      * by apply Hids, Hall.
      * unfold preds. rewrite preds_in_absent by done. constructor.
  - intros [Hac Hdist]. by apply (kahn_phase_sorted so tasks reached).
Qed.

Lemma filter_all {A : Type} (P : A → Prop) `{!∀ x, Decision (P x)} (l : list A) :
  (∀ x, x ∈ l → P x) → filter P l = l.
Proof.
  induction l as [|x l IH]; intros Hall; [done|].
  rewrite filter_cons_True by (apply Hall; by left). f_equal. apply IH.
  intros; apply Hall; by right.
Qed.

Lemma independent_preds tasks v : independent tasks → preds tasks v = [].
Proof.
  unfold independent, preds. generalize (ids tasks). intros I Hind.
  induction Hind as [|t ts Ht _ IH]; [done|].
  rewrite preds_in_cons, IH, app_nil_r. case_decide; [|done].
  destruct (filter _ (depends_on t)) as [|d l] eqn:E; [done|].
  assert (d ∈ filter (λ d, d ∈ I) (depends_on t)) as [HI Hd]%list_elem_of_filter
    by (rewrite E; by left).
  rewrite Forall_forall in Ht. by apply Ht in Hd.
Qed.

(** X4.  When no task refers to a task of the batch (all references, if any,
    are dangling), the order is the batch order: the ids at their first
    occurrence, and the list of ids itself when they are unique. *)
Theorem independent_tasks_keep_batch_order (so : set_order) (tasks : list task) :
  independent tasks →
  topo_sort so tasks = Ok (unreached [] (ids tasks)) ∧
  (NoDup (ids tasks) → topo_sort so tasks = Ok (ids tasks)).
Proof.
  intros Hind.
  assert (topo_sort so tasks = Ok (unreached [] (ids tasks))) as Hres.
  { destruct (topo_sort_order_shape so tasks) as (reached & Hk & Ho & Hnd & Hin).
    assert (seeds tasks = unreached [] (ids tasks)) as Hseeds.
    { unfold seeds. apply filter_all. intros v _. by apply independent_preds. }
    pose proof Hk as Hfifo. unfold kahn_phase in Hfifo.
    apply kahn_fifo in Hfifo as [k Hreached]. rewrite ready_seeds, Hseeds in Hreached.
    cbn in Hreached. rewrite Ho. f_equal.
    assert (∀ x, x ∈ ids tasks → x ∈ unreached [] (ids tasks)) as Hall.
    { intros x Hx. apply unreached_elem. split; [done|apply not_elem_of_nil]. }
    remember (unreached reached (ids tasks)) as tail eqn:Htail. clear Htail.
    subst reached.
    assert (k ++ tail = []) as Hrest.
    { destruct (k ++ tail) as [|x l] eqn:E; [done|]. exfalso.
      rewrite <- app_assoc, E in Hnd, Hin.
      apply NoDup_app in Hnd as (_ & Hdisj & _).
      apply (Hdisj x); [|by left].
      apply Hall, Hin, elem_of_app. right. by left. }
    by rewrite <- app_assoc, Hrest, app_nil_r. }
  split; [done|]. intros Hids. rewrite Hres. f_equal.
  rewrite unreached_filter by done. apply filter_not_in_nil.
Qed.

Lemma independent_tasks_keep_batch_order_witness :
  topo_sort newest_first [simple "B" ["Z"%string]; simple "A" []]
  = Ok ["B"; "A"]%string.
Proof.
  apply (independent_tasks_keep_batch_order newest_first
           [simple "B" ["Z"%string]; simple "A" []]).
  - repeat constructor; by_computation.
  - by_computation.
Defined.

(** ** The queue is first-in first-out: C8 *)

Lemma successors_spec tasks n :
  n ∈ ids tasks →
  NoDup (successors tasks n) ∧ ∀ v, v ∈ successors tasks n ↔ edge tasks n v.
Proof.
  intros Hn. destruct (build_nodes_spec tasks) as (_ & _ & _ & Hg).
  destruct (Hg n Hn) as (s & Es & Hnd & Hin). unfold successors. by rewrite Es.
Qed.

(** When [n] is at the head of the queue, the successors whose in-degree is
    down to one are those that taking [n] makes ready. *)
Lemma released_spec so tasks deg n q order :
  queue_inv tasks deg (n :: q) order →
  filter (λ v, deg !! v = Some 1) (set_iter so (successors tasks n))
  = released so tasks order n.
Proof.
  intros [Hdeg Hzero _ Hnd]. unfold released.
  destruct (Hzero n) as [Hn _]; [apply elem_of_app; right; by left|].
  destruct (successors_spec tasks n Hn) as [_ Hsucc].
  assert (NoDup (order ++ [n])) as Hnd'.
  { replace (order ++ n :: q) with ((order ++ [n]) ++ q) in Hnd
      by (by rewrite <- app_assoc).
    by apply NoDup_app in Hnd as (? & _ & _). }
  apply filter_ext_elem. intros v Hv. rewrite set_iter_perm in Hv.
  apply Hsucc in Hv. unfold edge in Hv.
  assert (v ∈ ids tasks) as Hid by (by apply preds_in_ids in Hv as [? _]).
  rewrite (Hdeg v Hid).
  pose proof (taken_snoc tasks order n v) as Hsnoc.
  rewrite decide_True in Hsnoc by done.
  unfold ready_after. split.
  - intros [= E].
    assert (preds tasks v ≡ₚ taken tasks (order ++ [n]) v) as Hperm
      by (apply taken_all; [done|lia]).
    split.
    + rewrite Hperm. by apply NoDup_filter.
    + apply Forall_forall. intros d Hd. rewrite Hperm in Hd.
      by apply list_elem_of_filter in Hd as [_ ?].
  - intros [Hdist Hall]. rewrite Forall_forall in Hall. f_equal.
    assert (taken tasks (order ++ [n]) v ≡ₚ preds tasks v) as Hperm.
    { apply NoDup_Permutation; [by apply NoDup_filter|done|].
      intros d. unfold taken. rewrite list_elem_of_filter. split; [tauto|].
      intros Hd. split; [done|by apply Hall]. }
    apply Permutation_length in Hperm. lia.
Qed.

Lemma queue_trace_nil so tasks : queue_trace so tasks [] = seeds tasks.
Proof. unfold queue_trace. cbn. by rewrite app_nil_r. Qed.

Lemma queue_trace_snoc so tasks order n :
  queue_trace so tasks (order ++ [n])
  = queue_trace so tasks order ++ released so tasks order n.
Proof.
  unfold queue_trace. rewrite imap_app, join_app, <- app_assoc. do 2 f_equal.
  - f_equal. apply imap_ext. intros i x Hi. cbn.
    rewrite take_app_le; [done|]. apply lookup_lt_Some in Hi. lia.
  - cbn. rewrite app_nil_r, Nat.add_0_r. by rewrite take_app_length.
Qed.

(** Invariant of the queue loop: what has been taken, followed by what is
    queued, is the trace of the queue so far. *)
Lemma kahn_trace so tasks fuel : ∀ deg q order out,
  queue_inv tasks deg q order →
  order ++ q = queue_trace so tasks order →
  kahn so (graph (build_nodes tasks)) fuel deg q order = Ok out →
  out = queue_trace so tasks out.
Proof.
  destruct (build_nodes_spec tasks) as (_ & _ & _ & Hg).
  induction fuel as [|fuel IH]; intros deg q order out Hinv Htrace Hk;
    destruct q as [|n q]; cbn in Hk; try done.
  - injection Hk as <-. by rewrite app_nil_r in Htrace.
  - injection Hk as <-. by rewrite app_nil_r in Htrace.
  - destruct (queue_inv_step so tasks _ Hg deg n q order Hinv)
      as (deg' & q' & Hr & Hinv').
    rewrite Hr in Hk. cbn in Hk.
    apply (IH deg' q' (order ++ [n]) out Hinv'); [|done].
    pose proof Hinv as [Hdeg Hzero _ _].
    destruct (Hzero n) as [Hn _]; [apply elem_of_app; right; by left|].
    destruct (successors_spec tasks n Hn) as [Hnd Hsucc].
    destruct (relax_spec (set_iter so (successors tasks n)) deg q)
      as (deg'' & Hr' & _).
    { by rewrite set_iter_perm. }
    { intros v Hv. rewrite set_iter_perm in Hv. apply Hsucc in Hv.
      apply preds_in_ids in Hv as [Hv _]. rewrite (Hdeg v Hv). eauto. }
    unfold successors in Hr'. rewrite Hr in Hr'. injection Hr' as _ ->.
    fold (successors tasks n). rewrite (released_spec so tasks deg n q order Hinv).
    rewrite queue_trace_snoc, <- Htrace, <- !app_assoc. done.
Qed.

Lemma kahn_phase_trace so tasks reached :
  kahn_phase so tasks = Ok reached → reached = queue_trace so tasks reached.
Proof.
  intros Hk. unfold kahn_phase in Hk.
  eapply (kahn_trace so tasks); [apply queue_inv_init| |exact Hk].
  cbn. by rewrite ready_seeds, queue_trace_nil.
Qed.

Lemma before_app_parts (l1 l2 : list string) a b :
  a ∈ l1 → b ∈ l2 → before (l1 ++ l2) a b.
Proof.
  intros (i & Hi)%list_elem_of_lookup (j & Hj)%list_elem_of_lookup.
  exists i, (length l1 + j)%nat. split_and!.
  - by apply lookup_app_l_Some.
  - rewrite lookup_app_r by lia. by replace (length l1 + j - length l1)%nat with j by lia.
  - apply lookup_lt_Some in Hi. lia.
Qed.

(** In a trace, what an id releases comes after the seeds and after what an
    id taken earlier releases. *)
Lemma queue_trace_fifo so tasks order j m v :
  order !! j = Some m → v ∈ released so tasks (take j order) m →
  (∀ s, s ∈ seeds tasks → before (queue_trace so tasks order) s v) ∧
  (∀ i n u, order !! i = Some n → (i < j)%nat →
     u ∈ released so tasks (take i order) n →
     before (queue_trace so tasks order) u v).
Proof.
  intros Hj Hv. unfold queue_trace.
  set (L := imap (λ i n, released so tasks (take i order) n) order).
  assert (L !! j = Some (released so tasks (take j order) m)) as HLj.
  { unfold L. by rewrite list_lookup_imap, Hj. }
  rewrite <- (take_drop_middle L j _ HLj), join_app. cbn [mjoin list_join].
  rewrite app_assoc. split.
  - intros s Hs. apply before_app_parts; [|apply elem_of_app; by left].
    apply elem_of_app. by left.
  - intros i n u Hi Hij Hu.
    apply before_app_parts; [|apply elem_of_app; by left].
    apply elem_of_app. right. apply list_elem_of_join.
    exists (released so tasks (take i order) n). split; [done|].
    apply list_elem_of_lookup. exists i.
    rewrite lookup_take_lt by done. unfold L. by rewrite list_lookup_imap, Hi.
Qed.

(** The loop consults the iteration order only on the successor sets. *)
Lemma kahn_ext so so' g fuel :
  (∀ n, set_iter so' (default [] (g !! n)) = set_iter so (default [] (g !! n))) →
  ∀ deg q order, kahn so' g fuel deg q order = kahn so g fuel deg q order.
Proof.
  intros Hext. induction fuel as [|fuel IH]; intros deg q order;
    destruct q as [|n q]; cbn; try done.
  rewrite Hext. destruct (relax deg q _) as [[deg' q']| |]; cbn; [apply IH|done..].
Qed.

Lemma set_iter_short (so : set_order) (l : list string) :
  (length l ≤ 1)%nat → set_iter so l = l.
Proof.
  intros Hl. pose proof (set_iter_perm so l) as Hperm.
  destruct l as [|x [|y l]]; cbn in Hl; [| |lia].
  - by apply Permutation_nil_r.
  - by apply Permutation_singleton_r.
Qed.

(** C8, as the code has it.  The queue loop takes the ids in the order in
    which they enter the queue, and its result [reached] is the trace of the
    queue: first the seeds (the ids of in-degree zero, which are those
    without in-batch dependency references, in batch order), then, for each
    id taken in turn, the ids that it makes ready, in the order in which the
    loop visits its successor set.  So whatever became ready first comes
    first.  That iteration order is not fixed by the batch: the result
    depends on it, but only through the order in which the successor sets of
    the batch are visited, and not at all when no successor set has more
    than one element. *)
Theorem topo_sort_fifo (so : set_order) (tasks : list task) :
  ∃ reached,
    kahn_phase so tasks = Ok reached ∧
    topo_sort so tasks = Ok (reached ++ unreached reached (ids tasks)) ∧
    ready (indeg (build_nodes tasks)) = seeds tasks ∧
    reached = queue_trace so tasks reached ∧
    (∀ j m v, reached !! j = Some m → v ∈ released so tasks (take j reached) m →
       (∀ s, s ∈ seeds tasks → before reached s v) ∧
       (∀ i n u, reached !! i = Some n → (i < j)%nat →
          u ∈ released so tasks (take i reached) n → before reached u v)) ∧
    (∀ pre n, released so tasks pre n `sublist_of` set_iter so (successors tasks n)) ∧
    (∀ n, n ∈ ids tasks →
       set_iter so (successors tasks n) ≡ₚ successors tasks n ∧
       ∀ v, v ∈ successors tasks n ↔ edge tasks n v) ∧
    (∀ so', (∀ n, set_iter so' (successors tasks n) = set_iter so (successors tasks n)) →
            topo_sort so' tasks = topo_sort so tasks) ∧
    ((∀ n, (length (successors tasks n) ≤ 1)%nat) →
     ∀ so', topo_sort so' tasks = topo_sort so tasks).
Proof.
  destruct (topo_sort_order_shape so tasks) as (reached & Hk & Ho & _).
  pose proof (kahn_phase_trace so tasks reached Hk) as Htrace.
  exists reached. split_and!; [done|done|apply ready_seeds|done| | | | |].
  - intros j m v Hj Hv.
    destruct (queue_trace_fifo so tasks reached j m v Hj Hv) as [Hseeds Hfifo].
    rewrite <- Htrace in Hseeds, Hfifo. by split.
  - intros pre n. apply sublist_filter.
  - intros n Hn. split; [apply set_iter_perm|]. by apply successors_spec.
  - intros so' Hext. unfold topo_sort, kahn_phase.
    by rewrite (kahn_ext so so').
  - intros Hshort so'. unfold topo_sort, kahn_phase.
    rewrite (kahn_ext so so'); [done|]. intros n.
    fold (successors tasks n). by rewrite !set_iter_short.
Qed.

(** ** Dangling references *)

Lemma without_dangling_ids tasks : ids (without_dangling tasks) = ids tasks.
Proof.
  unfold without_dangling, ids. rewrite <- list_fmap_compose. by apply list_fmap_ext.
Qed.

Lemma declare_nodes_keep I ts : ∀ st,
  foldl declare_node st (keep_references I <$> ts) = foldl declare_node st ts.
Proof. induction ts as [|t ts IH]; intros st; [done|]. cbn. apply IH. Qed.

Lemma add_edge_dom I tid st dep :
  dom_is I st → tid ∈ I → dom_is I (add_edge tid st dep).
Proof.
  intros Hdom Htid. by destruct (add_edge_fold I tid [dep] st Hdom Htid) as [? _].
Qed.

Lemma add_edge_filter I tid deps : ∀ st,
  dom_is I st → tid ∈ I →
  foldl (add_edge tid) st (filter (λ d, d ∈ I) deps) = foldl (add_edge tid) st deps.
Proof.
  induction deps as [|dep deps IH]; intros st Hdom Htid; [done|].
  rewrite filter_cons. case_decide as Hd; cbn.
  - apply IH; [by apply add_edge_dom|done].
  - assert (add_edge tid st dep = st) as ->; [|by apply IH].
    unfold add_edge. destruct (graph st !! dep) eqn:E; [|done].
    exfalso. apply Hd, (proj1 Hdom). eauto.
Qed.

Lemma add_edges_keep I ts : ∀ st,
  dom_is I st → (∀ t, t ∈ ts → t_id t ∈ I) →
  foldl add_edges st (keep_references I <$> ts) = foldl add_edges st ts.
Proof.
  induction ts as [|t ts IH]; intros st Hdom Hids; [done|].
  rewrite fmap_cons. cbn [foldl].
  assert (add_edges st (keep_references I t) = add_edges st t) as ->.
  { unfold add_edges. cbn. apply add_edge_filter; [done|]. apply Hids. by left. }
  apply IH; [|intros; apply Hids; by right].
  by destruct (add_edge_fold I (t_id t) (depends_on t) st Hdom) as [? _];
    [apply Hids; left|].
Qed.

Lemma build_nodes_without_dangling tasks :
  build_nodes (without_dangling tasks) = build_nodes tasks.
Proof.
  unfold build_nodes, without_dangling. rewrite declare_nodes_keep.
  apply add_edges_keep; [|intros t Ht; by apply list_elem_of_fmap_2].
  destruct (declare_nodes_spec tasks (Nodes ∅ dict_empty)) as (_ & _ & Hg & Hs).
  { apply dict_empty_wf. }
  cbn in Hg, Hs. split; intros k.
  - rewrite Hg, lookup_empty. case_decide; split; eauto; [by intros [? ?]|done].
  - rewrite Hs, lookup_empty. case_decide; split; eauto; [by intros [? ?]|done].
Qed.

Lemma topo_sort_without_dangling so tasks :
  topo_sort so (without_dangling tasks) = topo_sort so tasks.
Proof.
  unfold topo_sort, kahn_phase. rewrite build_nodes_without_dangling.
  destruct (kahn _ _ _ _ _ _) as [order| |]; cbn; [|done..].
  by rewrite !append_missing_unreached, without_dangling_ids.
Qed.

Lemma task_map_fmap (f : task → task) tasks :
  (∀ t, t_id (f t) = t_id t) → task_map (f <$> tasks) = f <$> task_map tasks.
Proof.
  intros Hf. unfold task_map.
  assert (∀ m : gmap string task,
            foldl (λ m t, <[t_id t := t]> m) (f <$> m) (f <$> tasks)
            = f <$> foldl (λ m t, <[t_id t := t]> m) m tasks) as H.
  { induction tasks as [|t tasks IH]; intros m; [done|]. cbn.
    rewrite Hf, <- fmap_insert. apply IH. }
  rewrite <- H. by rewrite fmap_empty.
Qed.

Lemma plan_task_keep parse tmap I start_dt st tid :
  (∀ d, is_Some (est st !! d) → d ∈ I) →
  plan_task parse (keep_references I <$> tmap) start_dt st tid
  = plan_task parse tmap start_dt st tid.
Proof.
  intros Hest. unfold plan_task, getitem. rewrite lookup_fmap.
  destruct (tmap !! tid) as [t|]; cbn; [|done].
  change (estimated_hours (keep_references I t)) with (estimated_hours t).
  destruct (float_ parse _) as [h| |]; cbn; [|done..].
  change (depends_on (keep_references I t)) with (filter (λ d, d ∈ I) (depends_on t)).
  unfold dep_ends. rewrite list_filter_filter.
  rewrite (filter_ext_elem (λ d, is_Some (est st !! d) ∧ d ∈ I)
             (λ d, is_Some (est st !! d))); [done|].
  intros d _. split; [tauto|]. intros Hd. split; [done|by apply Hest].
Qed.

Lemma earliest_starts_keep parse tmap I start_dt order : ∀ st,
  (∀ d, is_Some (est st !! d) → d ∈ I) → (∀ x, x ∈ order → x ∈ I) →
  for_each (plan_task parse (keep_references I <$> tmap) start_dt) st order
  = for_each (plan_task parse tmap start_dt) st order.
Proof.
  induction order as [|tid order IH]; intros st Hest Hord; [done|]. cbn.
  rewrite plan_task_keep by done.
  destruct (plan_task parse tmap start_dt st tid) as [s1| |] eqn:E; cbn; [|done..].
  apply IH; [|intros; apply Hord; by right].
  unfold plan_task in E. destruct (getitem tmap tid); cbn in E; try done.
  destruct (float_ parse _); cbn in E; try done.
  destruct (dep_ends _ _ _); cbn in E; try done. injection E as <-. cbn.
  intros d. destruct (decide (tid = d)) as [<-|Hne].
  - intros _. apply Hord. by left.
  - rewrite lookup_insert_ne by done. apply Hest.
Qed.

(** X5.  References to ids that are not in the batch have no effect at all:
    the batch and the batch with its dangling references removed get the
    same order and the same schedule (or the same exception). *)
Theorem dangling_references_ignored (so : set_order) (parse : string → option Q)
    (tasks : list task) (start_dt : Z) (deadline : option Z) (whpd : Z) :
  ids (without_dangling tasks) = ids tasks ∧
  Forall (λ t, Forall (λ d, d ∈ ids tasks) (depends_on t)) (without_dangling tasks) ∧
  topo_sort so (without_dangling tasks) = topo_sort so tasks ∧
  schedule_tasks so parse (without_dangling tasks) start_dt deadline whpd
  = schedule_tasks so parse tasks start_dt deadline whpd.
Proof.
  split_and!.
  - apply without_dangling_ids.
  - apply Forall_fmap, Forall_forall. intros t _. cbn.
    apply Forall_forall. by intros d [? _]%list_elem_of_filter.
  - apply topo_sort_without_dangling.
  - unfold schedule_tasks, schedule_plan. rewrite topo_sort_without_dangling.
    destruct (topo_sort so tasks) as [order| |] eqn:Ho; cbn; [|done..].
    unfold without_dangling. rewrite task_map_fmap by done.
    unfold earliest_starts. rewrite earliest_starts_keep.
    2:{ intros d. cbn. rewrite lookup_empty. by intros [? ?]. }
    2:{ intros x Hx. by apply (topo_sort_elem so tasks order x Ho). }
    destruct (for_each _ _ order) as [tm| |]; cbn; [|done..].
    assert (∀ tid, floored_hours parse (keep_references (ids tasks) <$> task_map tasks) tid
                   = floored_hours parse (task_map tasks) tid) as Hfl.
    { intros tid. unfold floored_hours, getitem. rewrite lookup_fmap.
      by destruct (task_map tasks !! tid). }
    assert (compression_ratio parse (keep_references (ids tasks) <$> task_map tasks)
              order tm start_dt deadline whpd
            = compression_ratio parse (task_map tasks) order tm start_dt deadline whpd)
      as ->.
    { unfold compression_ratio, total_h. destruct deadline; [|done].
      destruct (naive_end tm start_dt order); cbn; [|done..].
      case_decide; [|done]. do 2 f_equal.
      clear -Hfl. induction order as [|x order IH]; [done|]. cbn. by rewrite Hfl, IH. }
    destruct (compression_ratio _ _ _ _ _ _ _) as [ratio| |]; cbn; [|done..].
    assert (comprehension
              (materialize parse (keep_references (ids tasks) <$> task_map tasks) tm ratio)
              order
            = comprehension (materialize parse (task_map tasks) tm ratio) order) as ->;
      [|done].
    clear. induction order as [|x order IH]; [done|]. cbn. rewrite IH. f_equal.
    unfold materialize, getitem. rewrite lookup_fmap.
    by destruct (task_map tasks !! x).
Qed.

(** * Further properties of the calendar scheduler *)

(** ** The task dictionary and the shape of the result *)

Lemma task_map_snoc l t : task_map (l ++ [t]) = <[t_id t := t]> (task_map l).
Proof. unfold task_map. by rewrite foldl_app. Qed.

(** X6.  A lookup in [tmap] finds the last task of the batch that carries
    the id: with a repeated id, the later task replaces the earlier one. *)
Theorem task_map_last_wins (tasks : list task) (k : string) (t : task) :
  task_map tasks !! k = Some t
  ↔ ∃ l1 l2, tasks = l1 ++ t :: l2 ∧ t_id t = k ∧ k ∉ ids l2.
Proof.
  split.
  - revert t. induction tasks as [|a l IH] using rev_ind; intros t H.
    { unfold task_map in H. cbn in H. by rewrite lookup_empty in H. }
    rewrite task_map_snoc in H. destruct (decide (t_id a = k)) as [<-|Hne].
    + rewrite lookup_insert_eq in H. injection H as <-.
      exists l, []. split_and!; [done..|apply not_elem_of_nil].
    + rewrite lookup_insert_ne in H by done.
      destruct (IH t H) as (l1 & l2 & -> & Hk & Hl2).
      exists l1, (l2 ++ [a]). split_and!; [by rewrite <- app_assoc|done|].
      unfold ids in *. rewrite fmap_app. cbn.
      rewrite elem_of_app, list_elem_of_singleton.
      intros [?|?]; [done|congruence].
  - intros (l1 & l2 & -> & Hk & Hl2). revert Hl2.
    induction l2 as [|a l2 IH] using rev_ind; intros Hl2.
    + rewrite task_map_snoc, Hk. apply lookup_insert_eq.
    + unfold ids in *. rewrite fmap_app in Hl2. cbn in Hl2.
      rewrite elem_of_app, list_elem_of_singleton in Hl2.
      replace (l1 ++ t :: l2 ++ [a]) with ((l1 ++ t :: l2) ++ [a])
        by (by rewrite <- app_assoc).
      rewrite task_map_snoc, lookup_insert_ne by (intros ?; apply Hl2; by right).
      apply IH. intros ?. apply Hl2. by left.
Qed.

(** X7.  A schedule that is returned has one entry per distinct id of the
    batch, in the order given by [topo_sort]; the name of an entry is the
    name of the task that [tmap] holds for the id, or the id when that task
    has no name.  With unique ids there are as many entries as tasks. *)
Theorem schedule_one_entry_per_id (so : set_order) (parse : string → option Q)
    (tasks : list task) (start_dt : Z) (deadline : option Z) (whpd : Z)
    (entries : list entry) :
  schedule_tasks so parse tasks start_dt deadline whpd = Ok entries →
  topo_sort so tasks = Ok (e_id <$> entries) ∧
  NoDup (e_id <$> entries) ∧
  (∀ x, x ∈ e_id <$> entries ↔ x ∈ ids tasks) ∧
  Forall (λ e, ∃ t, task_map tasks !! e_id e = Some t ∧
                    e_name e = default (e_id e) (t_name t)) entries ∧
  (NoDup (ids tasks) → length entries = length tasks).
Proof.
  unfold schedule_tasks. intros H.
  destruct (schedule_plan so parse tasks start_dt deadline whpd) as [p| |] eqn:Hp;
    cbn in H; try done. injection H as <-.
  destruct (schedule_plan_steps _ _ _ _ _ _ _ Hp) as (Ho & _ & _ & Hrows).
  apply rows_spec in Hrows as [Hids Hrows].
  assert (e_id <$> (entry_of_row <$> p_rows p) = p_order p) as Heq.
  { rewrite <- Hids, <- list_fmap_compose. by apply list_fmap_ext. }
  rewrite Heq. split_and!.
  - done.
  - by apply (topo_sort_NoDup so tasks).
  - intros x. by apply (topo_sort_elem so tasks).
  - apply Forall_fmap. eapply Forall_impl; [exact Hrows|]. cbn.
    intros r (t & x & Ht & _ & Hn & _). by exists t.
  - intros Hnd. rewrite length_fmap, <- (length_fmap r_id), Hids.
    rewrite (Permutation_length (topo_sort_permutation so tasks _ Hnd Ho)).
    apply length_fmap.
Qed.

Lemma schedule_one_entry_per_id_witness :
  ∃ entries,
    schedule_tasks insertion_order no_strings chain 0 None 6 = Ok entries ∧
    e_id <$> entries = ["A"; "B"; "C"]%string ∧ length entries = length chain.
Proof.
  eexists. split; [by vm_compute|].
  destruct (schedule_one_entry_per_id insertion_order no_strings chain 0 None 6
              (entry_of_row <$> p_rows chain_plan)) as (_ & _ & _ & _ & Hlen).
  { by vm_compute. }
  split; [by vm_compute|]. apply Hlen. by_computation.
Defined.

(** ** What a run never raises *)













(** X9.  A run that returns a schedule had the [estimated_hours] of every
    task that [tmap] holds accepted by [float] (no default stands in for a
    value that [float] rejects), and was not on the empty batch with a
    deadline before the start. *)
Theorem schedule_tasks_returns_only_if (so : set_order) (parse : string → option Q)
    (tasks : list task) (start_dt : Z) (deadline : option Z) (whpd : Z)
    (entries : list entry) :
  schedule_tasks so parse tasks start_dt deadline whpd = Ok entries →
  (∀ k t, task_map tasks !! k = Some t → convertible parse t) ∧
  (tasks = [] → ∀ dl, deadline = Some dl → start_dt ≤ dl).
Proof.
  unfold schedule_tasks. intros H.
  destruct (schedule_plan so parse tasks start_dt deadline whpd) as [p| |] eqn:Hp;
    cbn in H; try done.
  split.
  - intros k t Ht.
    destruct (schedule_plan_steps _ _ _ _ _ _ _ Hp) as (Ho & _ & _ & Hrows).
    apply rows_spec in Hrows as [Hids Hrows].
    assert (k ∈ r_id <$> p_rows p) as Hk.
    { rewrite Hids. apply (topo_sort_elem so tasks _ k Ho).
      apply task_map_lookup in Ht as [Hin <-]. by apply list_elem_of_fmap_2. }
    apply list_elem_of_fmap in Hk as (r & -> & Hr).
    rewrite Forall_forall in Hrows.
    destruct (Hrows r Hr) as (t' & x & Ht' & Hx & _).
    exists x. congruence.
  - intros -> dl ->.
    destruct (decide (start_dt ≤ dl)) as [|Hlt]; [done|]. exfalso.
    unfold schedule_plan in Hp. cbn in Hp.
    by rewrite decide_True in Hp by lia.
Qed.

Lemma schedule_tasks_returns_only_if_witness :
  convertible no_strings (timed "B" 2 ["A"; "Z"]%string).
Proof.
  destruct (schedule_tasks_returns_only_if insertion_order no_strings chain 0 None 6
              (entry_of_row <$> p_rows chain_plan)) as [H _].
  - by vm_compute.
  - apply (H "B"%string). by vm_compute.
Defined.

(** ** Starts, ends and durations of a returned schedule *)

Lemma for_each_inv {A S : Type} (body : S → A → outcome S) (P : S → Prop)
    (l : list A) : ∀ s s',
  (∀ s x s', P s → x ∈ l → body s x = Ok s' → P s') →
  P s → for_each body s l = Ok s' → P s'.
Proof.
  induction l as [|x l IH]; intros s s' Hstep HP Hrun; cbn in Hrun.
  { by injection Hrun as <-. }
  destruct (body s x) as [s1| |] eqn:E; cbn in Hrun; try done.
  apply (IH s1); [|by eapply Hstep; [|left|]|done].
  intros t y t' HPt Hy. apply Hstep; [done|by right].
Qed.

(** The durations recorded by the first loop. *)
Lemma earliest_starts_dur parse tmap start_dt order tm tid u :
  earliest_starts parse tmap start_dt order = Ok tm → dur tm !! tid = Some u →
  ∃ t h, tmap !! tid = Some t ∧
         float_ parse (py_or (estimated_hours t) (JNum 2)) = Ok h ∧
         u = timedelta_hours h.
Proof.
  intros Hrun. revert tid u.
  apply (for_each_inv (plan_task parse tmap start_dt)
           (λ st, ∀ tid u, dur st !! tid = Some u →
              ∃ t h, tmap !! tid = Some t ∧
                     float_ parse (py_or (estimated_hours t) (JNum 2)) = Ok h ∧
                     u = timedelta_hours h) order (Times ∅ ∅) tm); [| |done].
  - intros st x st' HP _ Hstep tid u Hu. unfold plan_task, getitem in Hstep.
    destruct (tmap !! x) as [t|] eqn:Et; cbn in Hstep; try done.
    destruct (float_ parse _) as [h| |] eqn:Eh; cbn in Hstep; try done.
    destruct (dep_ends _ _ _); cbn in Hstep; try done. injection Hstep as <-.
    cbn in Hu. destruct (decide (x = tid)) as [->|Hne].
    + rewrite lookup_insert_eq in Hu. injection Hu as <-. eauto.
    + rewrite lookup_insert_ne in Hu by done. eauto.
  - intros tid u. cbn. by rewrite lookup_empty.
Qed.

Lemma round_half_even_bounds (x : Q) :
  Qfloor x ≤ round_half_even x ≤ Qfloor x + 1.
Proof.
  unfold round_half_even. destruct (Qcompare _ _); [destruct (Z.even _)|..]; lia.
Qed.

Lemma round_half_even_mono (x y : Q) :
  (x <= y)%Q → round_half_even x ≤ round_half_even y.
Proof.
  intros Hxy. pose proof (Qfloor_resp_le x y Hxy) as Hf.
  destruct (decide (Qfloor x < Qfloor y)) as [Hlt|Hge].
  { pose proof (round_half_even_bounds x). pose proof (round_half_even_bounds y). lia. }
  assert (Qfloor x = Qfloor y) as Heq by lia.
  unfold round_half_even. rewrite <- Heq.
  destruct (Qcompare_spec (x - inject_Z (Qfloor x)) (1 # 2)) as [Hx|Hx|Hx];
    destruct (Qcompare_spec (y - inject_Z (Qfloor x)) (1 # 2)) as [Hy|Hy|Hy];
    try destruct (Z.even (Qfloor x)); try lia; exfalso; lra.
Qed.

Lemma timedelta_hours_mono (h k : Q) :
  (h <= k)%Q → timedelta_hours h ≤ timedelta_hours k.
Proof.
  intros Hhk. apply round_half_even_mono.
  assert (0 <= inject_Z us_per_hour)%Q
    by (by change 0%Q with (inject_Z 0); rewrite <- Zle_Qle).
  nra.
Qed.

Lemma pymax_lower d l : (∀ x, x ∈ l → d ≤ x) → d ≤ pymax d l.
Proof.
  intros H. destruct (decide (l = [])) as [->|Hne]; [done|].
  apply H. by apply pymax_elem.
Qed.

Lemma nonnegative_float parse t :
  nonnegative_hours t →
  ∃ h, float_ parse (py_or (estimated_hours t) (JNum 2)) = Ok h ∧ (0 <= h)%Q.
Proof.
  unfold nonnegative_hours, estimated_hours, py_or.
  destruct (t_estimated_hours t) as [[| |q| |]|]; cbn; try done.
  - intros Hq. destruct (negb (Qeq_bool q 0)); cbn; eexists; (split; [done|]); lra.
  - intros _. eexists. split; [done|]. lra.
Qed.

(** With estimates that are not negative, no earliest start is before
    [start_dt] and no recorded duration is negative. *)
Lemma earliest_starts_lower parse tmap start_dt order tm :
  (∀ tid t, tmap !! tid = Some t → nonnegative_hours t) →
  earliest_starts parse tmap start_dt order = Ok tm →
  (∀ d e, est tm !! d = Some e → start_dt ≤ e) ∧
  (∀ d u, dur tm !! d = Some u → 0 ≤ u).
Proof.
  intros Hnn Hrun.
  assert ((∀ d, is_Some (est tm !! d) → is_Some (dur tm !! d)) ∧
          (∀ d e, est tm !! d = Some e → start_dt ≤ e) ∧
          (∀ d u, dur tm !! d = Some u → 0 ≤ u)) as (_ & ? & ?); [|done].
  apply (for_each_inv (plan_task parse tmap start_dt)
           (λ st, (∀ d, is_Some (est st !! d) → is_Some (dur st !! d)) ∧
                  (∀ d e, est st !! d = Some e → start_dt ≤ e) ∧
                  (∀ d u, dur st !! d = Some u → 0 ≤ u))
           order (Times ∅ ∅) tm); [| |done].
  - intros st x st' (Hsub & Hest & Hdur) _ Hstep. unfold plan_task, getitem in Hstep.
    destruct (tmap !! x) as [t|] eqn:Et; cbn in Hstep; try done.
    destruct (nonnegative_float parse t (Hnn x t Et)) as (h & Eh & Hh).
    rewrite Eh in Hstep. cbn in Hstep.
    assert (∀ d, is_Some (est st !! d) →
                 is_Some (<[x := timedelta_hours h]> (dur st) !! d)) as Hsub'.
    { intros d Hd. destruct (decide (x = d)) as [<-|Hne].
      - rewrite lookup_insert_eq; eauto.
      - rewrite lookup_insert_ne by done. auto. }
    assert (∀ d u, <[x := timedelta_hours h]> (dur st) !! d = Some u → 0 ≤ u) as Hdur'.
    { intros d u. destruct (decide (x = d)) as [<-|Hne].
      - rewrite lookup_insert_eq. intros [= <-]. by apply timedelta_hours_nonneg.
      - rewrite lookup_insert_ne by done. apply Hdur. }
    rewrite dep_ends_spec in Hstep by done. cbn in Hstep. injection Hstep as <-.
    cbn. split_and!; [|
      |done].
    + intros d. destruct (decide (x = d)) as [<-|Hne].
      * rewrite !lookup_insert_eq; eauto.
      * rewrite !lookup_insert_ne by done. apply Hsub.
    + intros d e. destruct (decide (x = d)) as [<-|Hne].
      * rewrite lookup_insert_eq. intros [= <-]. apply pymax_lower.
        intros v (d & -> & [Hd _]%list_elem_of_filter)%list_elem_of_fmap.
        destruct Hd as [e Ee]. destruct (Hsub' d) as [u Eu]; [by rewrite Ee|].
        rewrite Ee, Eu. cbn. specialize (Hest d e Ee). specialize (Hdur' d u Eu). lia.
      * rewrite lookup_insert_ne by done. apply Hest.
  - cbn. split_and!; intros d.
    + rewrite lookup_empty. by intros [? ?].
    + intros e. by rewrite lookup_empty.
    + intros u. by rewrite lookup_empty.
Qed.

(** X10.  When no estimate of the batch is negative (absent ones count as
    2), no task of a returned schedule starts or ends before [start_dt], and
    no entry's start date is before the date of [start_dt]. *)
Theorem schedule_starts_not_before_start (so : set_order) (parse : string → option Q)
    (tasks : list task) (start_dt : Z) (deadline : option Z) (whpd : Z) (p : plan) :
  Forall nonnegative_hours tasks →
  schedule_plan so parse tasks start_dt deadline whpd = Ok p →
  Forall (λ r, start_dt ≤ r_s r ∧ r_s r ≤ r_e r) (p_rows p) ∧
  Forall (λ e, date start_dt ≤ start_date e ∧ date start_dt ≤ end_date e)
         (entry_of_row <$> p_rows p).
Proof.
  intros Hnn Hp. rewrite Forall_forall in Hnn.
  destruct (schedule_plan_steps _ _ _ _ _ _ _ Hp) as (_ & He & Hr & Hrows).
  pose proof (compression_ratio_floor _ _ _ _ _ _ _ _ Hr) as Hfloor.
  destruct (earliest_starts_lower parse (task_map tasks) start_dt (p_order p)
              (p_times p)) as [Hest _]; [|done|].
  { intros tid t Ht. apply Hnn. by apply task_map_lookup in Ht as [? _]. }
  apply rows_spec in Hrows as [_ Hrows].
  assert (Forall (λ r, start_dt ≤ r_s r ∧ r_s r ≤ r_e r) (p_rows p)) as Hall.
  { eapply Forall_impl; [exact Hrows|]. cbn. intros r (t & x & Hrow).
    destruct (row_duration_floor _ _ _ _ _ _ _ Hfloor Hrow) as [Hq _].
    destruct Hrow as (_ & _ & _ & _ & Hs & ->). split; [by eapply Hest|].
    assert (0 ≤ timedelta_hours (r_h r)) by (apply timedelta_hours_nonneg; lra). lia. }
  split; [done|]. apply Forall_fmap. eapply Forall_impl; [exact Hall|]. cbn.
  intros r [H1 H2]. split; apply date_mono; lia.
Qed.

Lemma schedule_starts_not_before_start_witness :
  Forall (λ r, 0 ≤ r_s r ∧ r_s r ≤ r_e r) (p_rows two_cycle_plan).
Proof.
  apply (schedule_starts_not_before_start insertion_order no_strings two_cycle
           0 None 6 two_cycle_plan).
  - repeat constructor; by vm_compute.
  - by vm_compute.
Defined.

(** X11.  As long as the ratio is at most 1 (without a deadline it is 1), a
    task does not start before the end shown for a dependency that the order
    places before it, when that dependency's estimate is a number of at
    least one hour. *)
Theorem no_overlap_with_earlier_dependency (so : set_order)
    (parse : string → option Q) (tasks : list task) (start_dt : Z)
    (deadline : option Z) (whpd : Z) (p : plan) (pre post : list string)
    (tid d : string) (t td : task) (x : Q) (rt rd : row) :
  schedule_plan so parse tasks start_dt deadline whpd = Ok p →
  (p_ratio p <= 1)%Q →
  p_order p = pre ++ tid :: post →
  task_map tasks !! tid = Some t → d ∈ depends_on t → d ∈ pre →
  task_map tasks !! d = Some td →
  t_estimated_hours td = Some (JNum x) → (1 <= x)%Q →
  rt ∈ p_rows p → r_id rt = tid → rd ∈ p_rows p → r_id rd = d →
  r_e rd ≤ r_s rt.
Proof.
  intros Hp Hratio Hsplit Ht Hd Hpre Htd Hx Hx1 Hrt Hrt_id Hrd Hrd_id.
  destruct (schedule_plan_steps _ _ _ _ _ _ _ Hp) as (Ho & He & Hr & Hrows).
  pose proof (topo_sort_NoDup _ _ _ Ho) as Hnd.
  pose proof (compression_ratio_floor _ _ _ _ _ _ _ _ Hr) as Hfloor.
  destruct (earliest_starts_inv _ _ _ _ _ Hnd He) as [_ Hdur Hstart].
  specialize (Hstart pre tid post t Hsplit Ht).
  apply rows_spec in Hrows as [_ Hrows]. rewrite Forall_forall in Hrows.
  destruct (Hrows rt Hrt) as (t' & xt & _ & _ & _ & _ & Est & _).
  destruct (Hrows rd Hrd) as (td' & x' & Htd' & Ex' & _ & Eh & Esd & Eed).
  rewrite Hrt_id in Est. rewrite Hrd_id in Htd', Esd.
  assert (td' = td) as -> by congruence.
  assert (x' = x) as ->.
  { unfold estimated_hours in Ex'. rewrite Hx in Ex'. cbn in Ex'. congruence. }
  assert (finish (p_times p) d ≤ r_s rt) as Hfin.
  { rewrite Hstart in Est. injection Est as <-. apply pymax_upper.
    apply list_elem_of_fmap_2. by apply list_elem_of_filter. }
  destruct (proj2 (Hdur d)) as [u Eu].
  { rewrite Hsplit. apply elem_of_app. by left. }
  destruct (earliest_starts_dur _ _ _ _ _ d u He Eu) as (td' & h & Htd'' & Eh' & ->).
  assert (td' = td) as -> by congruence.
  assert (h = x) as ->.
  { unfold estimated_hours, py_or in Eh'. rewrite Hx in Eh'. cbn in Eh'.
    destruct (Qeq_bool x 0) eqn:E0; cbn in Eh'; [|congruence].
    apply Qeq_bool_iff in E0. lra. }
  unfold finish in Hfin. rewrite Esd, Eu in Hfin. cbn in Hfin.
  rewrite Eed. enough (timedelta_hours (r_h rd) ≤ timedelta_hours x) by lia.
  apply timedelta_hours_mono. rewrite Eh.
  pose proof (Q.max_l x 1 Hx1) as Hmax. rewrite Hmax. nra.
Qed.

Lemma no_overlap_with_earlier_dependency_witness :
  r_e (nth 0 (p_rows chain_plan) (Row "" "" 0 0 0))
  ≤ r_s (nth 1 (p_rows chain_plan) (Row "" "" 0 0 0)).
Proof.
  apply (no_overlap_with_earlier_dependency insertion_order no_strings chain 0 None 6
           chain_plan ["A"%string] ["C"%string] "B" "A"
           (timed "B" 2 ["A"; "Z"]%string) (timed "A" 2 []) 2).
  - by vm_compute.
  - by vm_compute.
  - by vm_compute.
  - by vm_compute.
  - by left.
  - by left.
  - by vm_compute.
  - done.
  - by vm_compute.
  - cbn. apply list_elem_of_further, list_elem_of_here.
  - done.
  - cbn. apply list_elem_of_here.
  - done.
Defined.

(** * The ids given by [plan] *)

Lemma assign_ids_lookup tasks i :
  ids (assign_ids tasks) !! i
  = (λ g, default (label i) (g_id g)) <$> tasks !! i.
Proof.
  unfold ids, assign_ids. rewrite list_lookup_fmap, list_lookup_imap.
  by destruct (tasks !! i).
Qed.

Lemma assign_ids_NoDup tasks :
  NoDup (ids (assign_ids tasks)) ↔ distinct_given tasks ∧ no_label_clash tasks.
Proof.
  rewrite NoDup_alt. split.
  - intros Hnd. split.
    + intros i j g g' s Hi Hj Hg Hg'.
      apply (Hnd i j s); rewrite assign_ids_lookup.
      * by rewrite Hi; cbn; rewrite Hg.
      * by rewrite Hj; cbn; rewrite Hg'.
    + intros i j g g' Hi Hj Hg' Hg.
      assert (i = j) as ->; [|congruence].
      apply (Hnd i j (label j)); rewrite assign_ids_lookup.
      * by rewrite Hi; cbn; rewrite Hg.
      * by rewrite Hj; cbn; rewrite Hg'.
  - intros [Hdist Hclash] i j x. rewrite !assign_ids_lookup.
    destruct (tasks !! i) as [g|] eqn:Hi; cbn; [|done].
    destruct (tasks !! j) as [g'|] eqn:Hj; cbn; [|done].
    destruct (g_id g) as [s|] eqn:Hg, (g_id g') as [s'|] eqn:Hg'; cbn;
      intros Hx Hx'; injection Hx as <-; injection Hx' as E.
    + subst s'. by apply (Hdist i j g g' s).
    + exfalso. apply (Hclash i j g g' Hi Hj Hg'). by rewrite Hg, E.
    + exfalso. apply (Hclash j i g' g Hj Hi Hg). by rewrite Hg', E.
    + apply (inj (String.app "")) in E. apply (inj pretty) in E. lia.
Qed.

(** X13.  The ids that [plan] hands to the scheduler are pairwise different
    exactly when the ids given by the generator are, and none of them is the
    label [T<i>] of a task that came without an id; this is so in particular
    when the generator gives no id at all.  The schedule returned for such a
    batch has one entry per generated task. *)
Theorem plan_ids_unique_iff (so : set_order) (parse : string → option Q)
    (generated : list generated_task) (start_dt : Z) (deadline : option Z)
    (whpd : Z) :
  (NoDup (ids (assign_ids generated))
   ↔ distinct_given generated ∧ no_label_clash generated) ∧
  (Forall (λ g, g_id g = None) generated → NoDup (ids (assign_ids generated))) ∧
  (NoDup (ids (assign_ids generated)) →
   ∀ entries, plan_schedule so parse generated start_dt deadline whpd = Ok entries →
              length entries = length generated).
Proof.
  split_and!.
  - apply assign_ids_NoDup.
  - intros Hnone. apply assign_ids_NoDup. rewrite Forall_lookup in Hnone. split.
    + intros i j g g' s Hi _ Hg. by rewrite (Hnone i g Hi) in Hg.
    + intros i j g g' Hi _ _. by rewrite (Hnone i g Hi).
  - intros Hnd entries H. unfold plan_schedule, schedule_tasks in H.
    destruct (schedule_plan _ _ _ _ _ _) as [p| |] eqn:Hp; cbn in H; try done.
    injection H as <-.
    destruct (schedule_plan_steps _ _ _ _ _ _ _ Hp) as (Ho & _ & _ & Hrows).
    apply rows_spec in Hrows as [Hids _].
    rewrite length_fmap, <- (length_fmap r_id), Hids.
    rewrite (Permutation_length (topo_sort_permutation so _ _ Hnd Ho)).
    unfold ids, assign_ids. by rewrite length_fmap, length_imap.
Qed.

(** * Deadlines written as text *)

(** ** Decimal numerals *)

Lemma pretty_N_char_digit (m : N) :
  (m < 10)%N →
  is_digit (pretty_N_char m) = true ∧
  (N.of_nat (code (pretty_N_char m)) - 48)%N = m.
Proof.
  intros Hm.
  assert (m = 0 ∨ m = 1 ∨ m = 2 ∨ m = 3 ∨ m = 4 ∨ m = 5 ∨ m = 6 ∨ m = 7
          ∨ m = 8 ∨ m = 9)%N as H by lia.
  repeat (destruct H as [->|H]; [by vm_compute|]). subst. by vm_compute.
Qed.

Lemma pretty_N_go_digits (x : N) : ∀ s,
  all_digits s = true → all_digits (pretty_N_go x s) = true.
Proof.
  induction (N.lt_wf_0 x) as [x _ IH]; intros s Hs.
  assert (x = 0 ∨ 0 < x)%N as [->|Hx] by lia; [by rewrite pretty_N_go_0|].
  rewrite pretty_N_go_step by done. apply IH; [by apply N.div_lt|].
  cbn. rewrite Hs, andb_true_r.
  apply pretty_N_char_digit. by apply N.mod_lt.
Qed.

Lemma pretty_N_go_value (x : N) : ∀ s,
  ∃ k, ∀ a, int_of a (pretty_N_go x s) = int_of (a * 10 ^ k + x) s.
Proof.
  induction (N.lt_wf_0 x) as [x _ IH]; intros s.
  assert (x = 0 ∨ 0 < x)%N as [->|Hx] by lia.
  { exists 0%N. intros a. rewrite pretty_N_go_0. f_equal. lia. }
  rewrite pretty_N_go_step by done.
  destruct (IH (x `div` 10)%N (N.div_lt x 10 Hx eq_refl)
              (String (pretty_N_char (x `mod` 10)) s)) as [k Hk].
  exists (N.succ k). intros a. rewrite Hk. cbn [int_of]. f_equal.
  destruct (pretty_N_char_digit (x `mod` 10)) as [_ ->]; [by apply N.mod_lt|].
  rewrite N.pow_succ_r'. pose proof (N.div_mod x 10). lia.
Qed.

Lemma pretty_N_go_nonempty (x : N) : ∀ s, (0 < x)%N → pretty_N_go x s ≠ EmptyString.
Proof.
  induction (N.lt_wf_0 x) as [x _ IH]; intros s Hx.
  rewrite pretty_N_go_step by done.
  destruct (decide (x `div` 10 = 0)%N) as [->|Hd].
  - by rewrite pretty_N_go_0.
  - apply IH; [by apply N.div_lt|]. by apply N.neq_0_lt_0.
Qed.

(** The numeral of [n] is a non-empty run of digits, and [int] reads [n]
    back from it. *)
Lemma pretty_nat_numeral (n : nat) :
  all_digits (pretty n) = true ∧ pretty n ≠ EmptyString ∧
  int_of 0 (pretty n) = N.of_nat n.
Proof.
  unfold pretty, pretty_nat, pretty, pretty_N.
  case_decide as Hn; [rewrite Hn; by vm_compute|].
  split_and!.
  - by apply pretty_N_go_digits.
  - apply pretty_N_go_nonempty. lia.
  - destruct (pretty_N_go_value (N.of_nat n) "") as [k Hk]. rewrite Hk. cbn. lia.
Qed.

(** ** The pattern on a numeral *)

Lemma digit_not_space c : is_digit c = true → is_space c = false.
Proof.
  unfold is_digit, is_space. intros [H1 H2]%andb_true_iff.
  apply Nat.leb_le in H1, H2. apply orb_false_iff.
  split; apply andb_false_iff; rewrite !Nat.leb_gt; lia.
Qed.

Lemma append_nil (u : string) : EmptyString +:+ u = u.
Proof. done. Qed.

Lemma append_cons c (d u : string) : String c d +:+ u = String c (d +:+ u).
Proof. done. Qed.

Lemma take_digits d u :
  all_digits d = true → starts_with_digit u = false →
  take_class is_digit (d +:+ u) = d ∧ skip_class is_digit (d +:+ u) = u.
Proof.
  intros Hd Hu. induction d as [|c d IH].
  - rewrite append_nil. destruct u as [|c u]; [done|]. cbn in *. by rewrite Hu.
  - rewrite append_cons. cbn in *. apply andb_true_iff in Hd as [Hc Hd]. rewrite Hc.
    destruct (IH Hd) as [-> ->]. done.
Qed.

Lemma match_here_numeral d u :
  all_digits d = true → d ≠ EmptyString → starts_with_digit u = false →
  match_here ("in " +:+ d +:+ u)
  = Some (d, String.prefix "week" (skip_class is_space u)).
Proof.
  intros Hd Hne Hu. destruct (take_digits d u Hd Hu) as [Ht Hs].
  destruct d as [|c d]; [done|]. clear Hne.
  cbn in Hd. apply andb_true_iff in Hd as [Hc Hd].
  pose proof (digit_not_space c Hc) as Hsp.
  unfold match_here. rewrite !append_cons, append_nil in *.
  cbn [after Ascii.eqb Bool.eqb]. cbn [take_class skip_class].
  replace (is_space (Ascii.Ascii false false false false false true false false))
    with true by done.
  cbn [take_class skip_class]. rewrite Hsp, Ht, Hs. done.
Qed.

Lemma pretty_N_go_length (k : nat) : ∀ (x : N) s,
  (x < 10 ^ N.of_nat k)%N →
  (String.length (pretty_N_go x s) ≤ String.length s + k)%nat.
Proof.
  induction k as [|k IH]; intros x s Hx.
  - assert (x = 0)%N as -> by (cbn in Hx; lia). rewrite pretty_N_go_0. lia.
  - assert (x = 0 ∨ 0 < x)%N as [->|Hpos] by lia.
    { rewrite pretty_N_go_0. lia. }
    rewrite pretty_N_go_step by done.
    etrans; [apply IH|cbn; lia].
    apply N.Div0.div_lt_upper_bound.
    rewrite Nat2N.inj_succ, N.pow_succ_r' in Hx. lia.
Qed.

Lemma pretty_nat_length (n : nat) :
  Z.of_nat n ≤ max_days → (String.length (pretty n) ≤ max_str_digits)%nat.
Proof.
  intros Hn. unfold pretty, pretty_nat, pretty, pretty_N.
  case_decide; [cbn; unfold max_str_digits; lia|].
  etrans; [apply (pretty_N_go_length 9)|cbn; unfold max_str_digits; lia].
  unfold max_days in Hn. change (10 ^ N.of_nat 9)%N with 1000000000%N. lia.
Qed.

Lemma search_here s m : match_here s = Some m → search s = Some m.
Proof. intros Hm. destruct s; cbn [search]; by rewrite Hm. Qed.

Lemma lower_strip_nonempty s : lower (strip s) ≠ EmptyString → s ≠ EmptyString.
Proof. by intros Hs ->. Qed.

Lemma relative_search s (n : nat) u :
  s = "in " +:+ pretty n +:+ u → starts_with_digit u = false →
  String.prefix "in " s = true ∧
  search s = Some (pretty n, String.prefix "week" (skip_class is_space u)).
Proof.
  intros -> Hu. destruct (pretty_nat_numeral n) as (Hd & Hne & _). split.
  - rewrite !append_cons, append_nil. cbn. by destruct (pretty n +:+ u).
  - by apply search_here, match_here_numeral.
Qed.

Lemma relative_deadline strptime s (n : nat) u start_dt :
  lower (strip s) = "in " +:+ pretty n +:+ u →
  starts_with_digit u = false →
  parse_deadline strptime (Some s) start_dt
  = let d := start_dt + Z.of_nat n * unit_days u * us_per_day in
    if decide (Z.of_nat n * unit_days u ≤ max_days ∧ d ≤ max_instant)
    then Deadline d else DeadlineOverflow.
Proof.
  intros Hs Hu. destruct (relative_search _ n u Hs Hu) as [Hin Hsearch].
  destruct (pretty_nat_numeral n) as (_ & _ & Hval).
  assert (s ≠ EmptyString) as Hne.
  { apply lower_strip_nonempty. rewrite Hs. by rewrite append_cons. }
  unfold parse_deadline. destruct (String.eqb_spec s "") as [|_]; [done|].
  rewrite Hin, Hsearch, Hval, nat_N_Z. unfold unit_days. cbv zeta.
  pose proof (pretty_nat_length n) as Hlen.
  destruct (String.prefix "week" (skip_class is_space u));
    rewrite ?Z.mul_1_r; repeat case_decide; try done; exfalso;
    destruct_and?;
    match goal with Hn : ¬ _ |- _ => apply Hn end;
    split_and?; try done; try lia; apply Hlen; lia.
Qed.

(** X14. A deadline written [in <n><rest>], in any letter case and with
    blanks around it, where [rest] does not go on with a digit: the
    deadline is [n] days after the start, or [7 * n] days when [rest]
    starts, after blanks, with [week]; any other unit counts as days.  When
    that many days is more than a [timedelta] holds, or the date would pass
    [datetime.max], the call leaves through an exception instead. *)
Theorem parse_deadline_relative strptime s (n : nat) u start_dt :
  lower (strip s) = "in " +:+ pretty n +:+ u →
  starts_with_digit u = false →
  parse_deadline strptime (Some s) start_dt
  = let d := start_dt + Z.of_nat n * unit_days u * us_per_day in
    if decide (Z.of_nat n * unit_days u ≤ max_days ∧ d ≤ max_instant)
    then Deadline d else DeadlineOverflow.
Proof. apply relative_deadline. Qed.

Lemma parse_deadline_relative_witness :
  parse_deadline (λ _, None) (Some "  In 2 Weeks ") 0 = Deadline (14 * us_per_day).
Proof.
  apply (parse_deadline_relative (λ _, None) "  In 2 Weeks " 2 " weeks" 0).
  - by vm_compute.
  - by vm_compute.
Defined.

(** X15. With such a relative deadline, the hours the plan may use are the
    working hours of the days written (seven to the week), and of one day
    when the text asks for no days at all. *)
Theorem relative_deadline_hours strptime s (n : nat) u start_dt d whpd :
  lower (strip s) = "in " +:+ pretty n +:+ u →
  starts_with_digit u = false →
  parse_deadline strptime (Some s) start_dt = Deadline d →
  hours_avail start_dt d whpd = Z.max (Z.of_nat n * unit_days u) 1 * whpd.
Proof.
  intros Hs Hu Hd. rewrite (relative_deadline _ _ n u) in Hd by done.
  cbv zeta in Hd. case_decide; [|done]. injection Hd as <-.
  unfold hours_avail, days. do 2 f_equal.
  replace (start_dt + Z.of_nat n * unit_days u * us_per_day - start_dt)
    with (Z.of_nat n * unit_days u * us_per_day) by lia.
  by apply Z.div_mul.
Qed.

Lemma relative_deadline_hours_witness :
  hours_avail 0 0 6 = 6.
Proof.
  apply (relative_deadline_hours (λ _, None) "in 0 days" 0 " days" 0 0 6).
  - by vm_compute.
  - by vm_compute.
  - by vm_compute.
Defined.

Lemma int_of_nonneg ds : 0 ≤ Z.of_N (int_of 0 ds).
Proof. lia. Qed.

(** X16. A deadline that [parse_deadline] returns is either the date that
    [strptime] read from the trimmed, lower-cased text, or a whole number of
    days, none to [max_days], after the start: a relative deadline is never
    before the start and never past [datetime.max]. *)
Theorem parse_deadline_result strptime s start_dt d :
  parse_deadline strptime s start_dt = Deadline d →
  (start_dt ≤ d ≤ max_instant ∧
   ∃ k, 0 ≤ k ≤ max_days ∧ d = start_dt + k * us_per_day)
  ∨ (∃ s0, s = Some s0 ∧ strptime (lower (strip s0)) = Some d).
Proof.
  unfold parse_deadline. destruct s as [s0|]; [|done].
  destruct (String.eqb s0 ""); [done|]. cbv zeta.
  destruct (if String.prefix "in " (lower (strip s0))
            then search (lower (strip s0)) else None) as [[ds week]|].
  - pose proof (int_of_nonneg ds) as Hn.
    case_decide as Hok; [|done]. intros [= <-]. destruct Hok as (_ & Hk & Hd).
    left. assert (0 < us_per_day) by done.
    destruct week; (split; [split; [nia|done]|]);
      eexists; (split; [|done]); lia.
  - destruct (strptime (lower (strip s0))) as [d'|] eqn:Hp; [|done].
    intros [= <-]. right. by exists s0.
Qed.

Lemma parse_deadline_result_witness :
  (0 ≤ 3 * us_per_day ≤ max_instant ∧
   ∃ k, 0 ≤ k ≤ max_days ∧ 3 * us_per_day = 0 + k * us_per_day)
  ∨ (∃ s0, Some "in 3 days"%string = Some s0
           ∧ (λ _ : string, @None Z) (lower (strip s0)) = Some (3 * us_per_day)).
Proof.
  apply (parse_deadline_result (λ _, None) (Some "in 3 days"%string) 0).
  by vm_compute.
Defined.
